(** * audio-topic-model: the knowledge-graph construction stage

    A shallow embedding of [src/audio_topic_model/topic_model.py]:
    [generate_topic_key] (the topic identity resolver) and
    [create_topic_graph] (the planner and writer of the three upsert
    phases), together with the part of the Python runtime and of the
    Cypher statements that these two functions rely on. *)

From Stdlib Require Import ZArith String Ascii.
From Stdlib Require Import Floats.PrimFloat.
From stdpp Require Import base option list.

Set Warnings "-inexact-float".

Local Open Scope Z_scope.

(** ** Python values *)

(** A Python [str] is a sequence of Unicode code points. *)
Definition str := list Z.

(** A Python [bytes] value: every element lies in [0, 256). *)
Definition bytes := list Z.

(** A Python [float] is an IEEE 754 binary64 number. *)
Definition weight := float.

(** An ASCII string literal of the source, as a [str]. *)
Definition py (s : string) : str :=
  map (fun a => Z.of_N (N_of_ascii a)) (list_ascii_of_string s).

(** [sep.join(xs)] *)
Fixpoint join (sep : str) (xs : list str) : str :=
  match xs with
  | [] => []
  | x :: rest =>
      match rest with
      | [] => x
      | _ :: _ => x ++ sep ++ join sep rest
      end
  end.

(** [str.encode()] with the default codec (UTF-8, errors="strict").
    [None] stands for the [UnicodeEncodeError] that CPython raises on a
    lone surrogate; code points outside the Unicode range cannot occur in
    a [str] and are rejected too. *)
Definition utf8_char (c : Z) : option bytes :=
  if c <? 0 then None
  else if c <? 0x80 then Some [c]
  else if c <? 0x800 then
    Some [Z.lor 0xC0 (Z.shiftr c 6); Z.lor 0x80 (Z.land c 0x3F)]
  else if c <? 0x10000 then
    if (0xD800 <=? c) && (c <=? 0xDFFF) then None
    else Some [Z.lor 0xE0 (Z.shiftr c 12);
               Z.lor 0x80 (Z.land (Z.shiftr c 6) 0x3F);
               Z.lor 0x80 (Z.land c 0x3F)]
  else if c <? 0x110000 then
    Some [Z.lor 0xF0 (Z.shiftr c 18);
          Z.lor 0x80 (Z.land (Z.shiftr c 12) 0x3F);
          Z.lor 0x80 (Z.land (Z.shiftr c 6) 0x3F);
          Z.lor 0x80 (Z.land c 0x3F)]
  else None.

Fixpoint encode (s : str) : option bytes :=
  match s with
  | [] => Some []
  | c :: rest =>
      match utf8_char c, encode rest with
      | Some b, Some bs => Some (b ++ bs)
      | _, _ => None
      end
  end.

(** ** hashlib.md5 (RFC 1321) on 32-bit words held in [Z] *)

Module MD5.

Definition mask32 : Z := 0xFFFFFFFF.
Definition w32 (x : Z) : Z := x mod 2 ^ 32.
Definition add32 (x y : Z) : Z := w32 (x + y).
Definition not32 (x : Z) : Z := Z.lxor x mask32.
Definition rotl32 (x n : Z) : Z :=
  Z.lor (w32 (Z.shiftl x n)) (Z.shiftr x (32 - n)).

Definition K : list Z :=
  [ 3614090360; 3905402710; 606105819; 3250441966; 4118548399; 1200080426;
    2821735955; 4249261313; 1770035416; 2336552879; 4294925233; 2304563134;
    1804603682; 4254626195; 2792965006; 1236535329; 4129170786; 3225465664;
    643717713; 3921069994; 3593408605; 38016083; 3634488961; 3889429448;
    568446438; 3275163606; 4107603335; 1163531501; 2850285829; 4243563512;
    1735328473; 2368359562; 4294588738; 2272392833; 1839030562; 4259657740;
    2763975236; 1272893353; 4139469664; 3200236656; 681279174; 3936430074;
    3572445317; 76029189; 3654602809; 3873151461; 530742520; 3299628645;
    4096336452; 1126891415; 2878612391; 4237533241; 1700485571; 2399980690;
    4293915773; 2240044497; 1873313359; 4264355552; 2734768916; 1309151649;
    4149444226; 3174756917; 718787259; 3951481745 ].

Definition S : list Z :=
  [ 7; 12; 17; 22; 7; 12; 17; 22; 7; 12; 17; 22; 7; 12; 17; 22;
    5; 9; 14; 20; 5; 9; 14; 20; 5; 9; 14; 20; 5; 9; 14; 20;
    4; 11; 16; 23; 4; 11; 16; 23; 4; 11; 16; 23; 4; 11; 16; 23;
    6; 10; 15; 21; 6; 10; 15; 21; 6; 10; 15; 21; 6; 10; 15; 21 ].

Record state := mk_state { sa : Z; sb : Z; sc : Z; sd : Z }.

Definition init : state :=
  mk_state 0x67452301 0xefcdab89 0x98badcfe 0x10325476.

(** Little-endian conversions. *)
Definition le_word (b0 b1 b2 b3 : Z) : Z :=
  b0 + 256 * b1 + 65536 * b2 + 16777216 * b3.

Fixpoint le_bytes (n : nat) (x : Z) : bytes :=
  match n with
  | O => []
  | Datatypes.S n' => x mod 256 :: le_bytes n' (x / 256)
  end.

Fixpoint words (bs : bytes) (n : nat) : list Z :=
  match n, bs with
  | Datatypes.S n', b0 :: b1 :: b2 :: b3 :: rest =>
      le_word b0 b1 b2 b3 :: words rest n'
  | _, _ => []
  end.

(** One of the 64 operations of a block. *)
Definition round (m : list Z) (st : state) (i : nat) : state :=
  let '(mk_state a b c d) := st in
  let iz := Z.of_nat i in
  let '(f, g) :=
    if iz <? 16 then (Z.lor (Z.land b c) (Z.land (not32 b) d), iz)
    else if iz <? 32 then
      (Z.lor (Z.land d b) (Z.land (not32 d) c), (5 * iz + 1) mod 16)
    else if iz <? 48 then (Z.lxor (Z.lxor b c) d, (3 * iz + 5) mod 16)
    else (Z.lxor c (Z.lor b (not32 d)), (7 * iz) mod 16) in
  let x := add32 (add32 (add32 f a) (nth i K 0)) (nth (Z.to_nat g) m 0) in
  mk_state d (add32 b (rotl32 x (nth i S 0))) b c.

Definition block (st : state) (m : list Z) : state :=
  let st' := fold_left (round m) (seq 0 64) st in
  mk_state (add32 (sa st) (sa st')) (add32 (sb st) (sb st'))
           (add32 (sc st) (sc st')) (add32 (sd st) (sd st')).

(** The message followed by 0x80, zeros up to 56 modulo 64, and the
    bit length in 64 bits, little-endian. *)
Definition pad (msg : bytes) : bytes :=
  let n := Z.of_nat (length msg) in
  let zeros := Z.to_nat ((55 - n) mod 64) in
  msg ++ [0x80] ++ repeat 0 zeros ++ le_bytes 8 ((8 * n) mod 2 ^ 64).

Fixpoint blocks (n : nat) (bs : bytes) (st : state) : state :=
  match n with
  | O => st
  | Datatypes.S n' => blocks n' (drop 64 bs) (block st (words bs 16))
  end.

Definition digest (msg : bytes) : bytes :=
  let p := pad msg in
  let st := blocks (length p / 64)%nat p init in
  le_bytes 4 (sa st) ++ le_bytes 4 (sb st)
    ++ le_bytes 4 (sc st) ++ le_bytes 4 (sd st).

Definition hex_digit (d : Z) : Z :=
  if d <? 10 then 48 + d else 87 + d.

(** [.hexdigest()]: two lowercase hexadecimal digits per byte. *)
Definition hexdigest (msg : bytes) : str :=
  flat_map (fun b => [hex_digit (b / 16); hex_digit (b mod 16)]) (digest msg).

End MD5.

(** ** The topic identity resolver *)

(** The keyword list of a topic, as [topic_model.get_topic] returns it. *)
Definition keyword_list := list (str * weight).

(** [generate_topic_key], topic_model.py lines 90-92. *)
Definition generate_topic_key (kws : keyword_list) : option str :=
  let keywords_string := join (py "_") (map (fun '(kw, _) => kw) kws) in
  match encode keywords_string with
  | Some b => Some (MD5.hexdigest b)
  | None => None
  end.

(** ** The graph store

    The store holds labelled nodes and typed relationships.  A node is
    identified by its position in [nodes] (its internal id); the program
    never deletes a node or a relationship, so positions are stable.  Only
    the three labels, the two relationship types and the properties that the
    statements of [create_topic_graph] read or write are represented. *)

Inductive node :=
| Topic (key : str) (keywords : option str)
| Document (content : str)
| Keyword (word : str).

Inductive rel :=
| BELONGS_TO (src dst : nat)
| REPRESENTS (src dst : nat) (strength : option weight).

Record graph := Graph { nodes : list node; rels : list rel }.

Definition empty_graph : graph := Graph [] [].

(** The node patterns [(:Topic {key: k})], [(:Document {content: c})] and
    [(:Keyword {word: w})]. *)
Definition is_topic (k : str) (n : node) : bool :=
  match n with Topic k' _ => bool_decide (k' = k) | _ => false end.

Definition is_document (c : str) (n : node) : bool :=
  match n with Document c' => bool_decide (c' = c) | _ => false end.

Definition is_keyword (w : str) (n : node) : bool :=
  match n with Keyword w' => bool_decide (w' = w) | _ => false end.

(** The relationship patterns [(d)-[:BELONGS_TO]->(t)] and
    [(k)-[:REPRESENTS]->(t)] between bound end points. *)
Definition is_belongs_to (d t : nat) (e : rel) : bool :=
  match e with
  | BELONGS_TO a b => bool_decide (a = d) && bool_decide (b = t)
  | _ => false
  end.

Definition is_represents (k t : nat) (e : rel) : bool :=
  match e with
  | REPRESENTS a b _ => bool_decide (a = k) && bool_decide (b = t)
  | _ => false
  end.

(** The positions of the elements of [l] that match a pattern, in order. *)
Definition positions {A} (p : A -> bool) (l : list A) : list nat :=
  filter (fun i => from_option p false (l !! i)) (seq 0 (length l)).

(** [MATCH (n:pattern)]: one row per matching node; no row, and no error,
    when nothing matches. *)
Definition match_nodes (p : node -> bool) (g : graph) : list nat :=
  positions p (nodes g).

(** [MERGE (n:pattern)]: binds every matching node, or creates one node
    when there is none. *)
Definition merge_node (p : node -> bool) (fresh : node) (g : graph)
  : graph * list nat :=
  match match_nodes p g with
  | [] => (Graph (nodes g ++ [fresh]) (rels g), [length (nodes g)])
  | ids => (g, ids)
  end.

(** [MERGE (a)-[r:TYPE]->(b)] between bound nodes. *)
Definition merge_rel (p : rel -> bool) (fresh : rel) (g : graph)
  : graph * list nat :=
  match positions p (rels g) with
  | [] => (Graph (nodes g) (rels g ++ [fresh]), [length (rels g)])
  | ids => (g, ids)
  end.

(** [SET t.keywords = v] and [SET r.strength = s] on one bound element. *)
Definition with_keywords (v : str) (n : node) : node :=
  match n with Topic k _ => Topic k (Some v) | _ => n end.

Definition with_strength (s : weight) (e : rel) : rel :=
  match e with REPRESENTS a b _ => REPRESENTS a b (Some s) | _ => e end.

Definition set_keywords (v : str) (g : graph) (t : nat) : graph :=
  Graph (alter (with_keywords v) t (nodes g)) (rels g).

Definition set_strength (s : weight) (g : graph) (r : nat) : graph :=
  Graph (nodes g) (alter (with_strength s) r (rels g)).

(** The records of the two batches, the dicts of lines 30-35 and 51-54. *)
Record topic_query := TopicQuery { tq_key : str; tq_keywords : str }.
Record doc_query := DocQuery { dq_content : str; dq_topic_key : str }.

(** The three parameterised statements passed to [session.run]. *)
Inductive statement :=
| MergeTopics (topics : list topic_query)
| MergeDocuments (docs : list doc_query)
| MergeKeyword (keyword : str) (topic_key : str) (strength : weight).

(** Lines 42-44, for one row of [UNWIND $topics AS topic]:
    [MERGE (t:Topic {key: topic.key}) SET t.keywords = topic.keywords]. *)
Definition run_topic_row (g : graph) (topic : topic_query) : graph :=
  let '(g1, ts) :=
    merge_node (is_topic (tq_key topic)) (Topic (tq_key topic) None) g in
  foldl (set_keywords (tq_keywords topic)) g1 ts.

(** Lines 61-65, for one row of [UNWIND $docs AS doc]:
    [MERGE (d:Document {content: doc.content}) WITH d, doc
     MATCH (t:Topic {key: doc.topic_key}) MERGE (d)-[:BELONGS_TO]->(t)]. *)
Definition run_doc_row (g : graph) (doc : doc_query) : graph :=
  let '(g1, ds) :=
    merge_node (is_document (dq_content doc)) (Document (dq_content doc)) g in
  let ts := match_nodes (is_topic (dq_topic_key doc)) g1 in
  foldl (fun g '(d, t) =>
           fst (merge_rel (is_belongs_to d t) (BELONGS_TO d t) g))
        g1 (list_prod ds ts).

(** Lines 77-81:
    [MERGE (k:Keyword {word: $keyword}) WITH k
     MATCH (t:Topic {key: $topic_key}) MERGE (k)-[r:REPRESENTS]->(t)
     SET r.strength = $strength]. *)
Definition run_keyword (g : graph) (keyword topic_key : str) (strength : weight)
  : graph :=
  let '(g1, ks) := merge_node (is_keyword keyword) (Keyword keyword) g in
  let ts := match_nodes (is_topic topic_key) g1 in
  foldl (fun g '(k, t) =>
           let '(g2, rs) :=
             merge_rel (is_represents k t) (REPRESENTS k t None) g in
           foldl (set_strength strength) g2 rs)
        g1 (list_prod ks ts).

(** The effect of one statement on the store.  The rows of an [UNWIND] are
    taken one after the other. *)
Definition exec (q : statement) (g : graph) : graph :=
  match q with
  | MergeTopics topics => foldl run_topic_row g topics
  | MergeDocuments docs => foldl run_doc_row g docs
  | MergeKeyword keyword topic_key strength =>
      run_keyword g keyword topic_key strength
  end.

(** ** The session *)

(** A session on the store, with the statements it has run so far. *)
Record session := Session { store : graph; log : list statement }.

(** [session.run(statement, parameters)].  Failures of the store itself
    (connection, transaction) are outside the model. *)
Definition run (s : session) (q : statement) : session :=
  Session (exec q (store s)) (log s ++ [q]).

(** How a call ends: it returns, or an exception leaves it.  The only
    exception that the modelled code can raise is the [UnicodeEncodeError]
    of [str.encode]. *)
Inductive exn := UnicodeEncodeError.

Inductive outcome :=
| Returned (s : session)
| Raised (e : exn) (s : session).

Definition final (o : outcome) : session :=
  match o with Returned s => s | Raised _ s => s end.

(** ** create_topic_graph *)

(** The iteration order of [set(topics)] is left open by Python: any
    enumeration without repetition of the elements of [topics]. *)
Class SetIteration := {
  set_iter : list Z -> list Z;
  set_iter_NoDup : forall l, NoDup (set_iter l);
  set_iter_elem : forall l x, x ∈ set_iter l <-> x ∈ l
}.

(** [topic_model.get_topic] *)
Definition model := Z -> keyword_list.

(** [zip(docs, topics)] stops at the end of the shorter sequence. *)
Fixpoint zip_py {A B} (xs : list A) (ys : list B) : list (A * B) :=
  match xs, ys with
  | x :: xs', y :: ys' => (x, y) :: zip_py xs' ys'
  | _, _ => []
  end.

(** The comprehension of lines 29-37. *)
Definition topic_queries (topic_model : model) (topic_ids : list Z)
  : option (list topic_query) :=
  mapM (fun topic_id =>
          match generate_topic_key (topic_model topic_id) with
          | Some key =>
              Some (TopicQuery key
                      (join (py ", ")
                         (map (fun '(word, proba) => word)
                              (topic_model topic_id))))
          | None => None
          end) topic_ids.

(** The comprehension of lines 50-56. *)
Definition doc_queries (topic_model : model) (docs : list str) (topics : list Z)
  : option (list doc_query) :=
  mapM (fun '(doc, topic) =>
          match generate_topic_key (topic_model topic) with
          | Some key => Some (DocQuery doc key)
          | None => None
          end) (zip_py docs topics).

(** The loop of lines 71-86. *)
Fixpoint keyword_loop (topic_model : model) (s : session) (topic_ids : list Z)
  : outcome :=
  match topic_ids with
  | [] => Returned s
  | topic_id :: rest =>
      match generate_topic_key (topic_model topic_id) with
      | None => Raised UnicodeEncodeError s
      | Some topic_key =>
          let s' :=
            foldl (fun s '(keyword, strength) =>
                     run s (MergeKeyword keyword topic_key strength))
                  s (topic_model topic_id) in
          keyword_loop topic_model s' rest
      end
  end.

(** Lines 13-86; [s] is the session opened on [driver]. *)
Definition create_topic_graph `{SetIteration}
    (s : session) (docs : list str) (topics : list Z) (topic_model : model)
  : outcome :=
  let topic_ids := set_iter topics in
  match topic_queries topic_model topic_ids with
  | None => Raised UnicodeEncodeError s
  | Some tqs =>
      let s1 := run s (MergeTopics tqs) in
      match doc_queries topic_model docs topics with
      | None => Raised UnicodeEncodeError s1
      | Some dqs =>
          let s2 := run s1 (MergeDocuments dqs) in
          keyword_loop topic_model s2 topic_ids
      end
  end.

(** An iteration order: each element at its last occurrence. *)
#[export] Instance last_seen_order : SetIteration :=
  {| set_iter := remove_dups;
     set_iter_NoDup := NoDup_remove_dups;
     set_iter_elem := elem_of_remove_dups |}.

(** ** The resolver in the words of the specification

    The words alone, concatenated with the separator in between, encoded
    as UTF-8, hashed, and printed as a lowercase hexadecimal digest. *)

Definition spec_concat (sep : str) (ws : list str) : str :=
  match ws with
  | [] => []
  | w :: ws' => foldl (fun acc x => acc ++ sep ++ x) w ws'
  end.

Definition hex_alphabet : str := py "0123456789abcdef".

Definition spec_lower_hex (bs : bytes) : str :=
  bs ≫= (fun b => [nth (Z.to_nat (b / 16)) hex_alphabet 0;
                   nth (Z.to_nat (b mod 16)) hex_alphabet 0]).

(** UTF-8 as the standard tabulates it (RFC 3629, section 3), octet by
    octet:

      0000-007F       0xxxxxxx
      0080-07FF       110xxxxx 10xxxxxx
      0800-FFFF       1110xxxx 10xxxxxx 10xxxxxx
      10000-10FFFF    11110xxx 10xxxxxx 10xxxxxx 10xxxxxx

    The surrogates D800-DFFF have no encoding, and neither has a number
    outside the Unicode range. *)
Definition spec_utf8_char (c : Z) : option bytes :=
  if decide (0 <= c <= 0x7F) then Some [c]
  else if decide (0x80 <= c <= 0x7FF) then
    Some [192 + c / 64; 128 + c mod 64]
  else if decide (0xD800 <= c <= 0xDFFF) then None
  else if decide (0x800 <= c <= 0xFFFF) then
    Some [224 + c / 4096; 128 + (c / 64) mod 64; 128 + c mod 64]
  else if decide (0x10000 <= c <= 0x10FFFF) then
    Some [240 + c / 262144; 128 + (c / 4096) mod 64;
          128 + (c / 64) mod 64; 128 + c mod 64]
  else None.

Definition spec_utf8 (s : str) : option bytes :=
  mjoin <$> mapM spec_utf8_char s.

Definition spec_resolve (kws : keyword_list) : option str :=
  (fun b => spec_lower_hex (MD5.digest b))
    <$> spec_utf8 (spec_concat (py "_") (kws.*1)).

(** ** Notions used to describe the effect of the statements *)

(** The effect of a [SET] on every element that a pattern binds. *)
Definition update_where {A} (p : A -> bool) (f : A -> A) (l : list A) : list A :=
  (fun x => if p x then f x else x) <$> l.

(** What a [MERGE] appends: the fresh element when nothing matches. *)
Definition fresh_if_absent {A} (p : A -> bool) (x : A) (l : list A) : list A :=
  match positions p l with [] => [x] | _ => [] end.

(** A relationship between some pair of bound end points. *)
Definition in_pairs (pat : nat -> nat -> rel -> bool) (ps : list (nat * nat))
    (e : rel) : bool :=
  existsb (fun '(a, b) => pat a b e) ps.

(** [MERGE (a)-[r]->(b)] followed by a [SET] that applies [f] to [r]. *)
Definition merge_set_rel (pat : nat -> nat -> rel -> bool)
    (fresh : nat -> nat -> rel) (f : rel -> rel) (l : list rel)
    (ab : nat * nat) : list rel :=
  update_where (pat ab.1 ab.2) f l
    ++ fresh_if_absent (pat ab.1 ab.2) (f (fresh ab.1 ab.2)) l.

(** The nodes after [MERGE (n:pattern)]. *)
Definition merged_nodes (p : node -> bool) (fresh : node) (ns : list node)
  : list node :=
  ns ++ fresh_if_absent p fresh ns.

(** ** Sample inputs *)

(** The scenario of the specification: topic 0 with the keywords
    [("chat", 0.9), ("chien", 0.7)]; every other topic id with [("a", 0.5)]. *)
Definition sample_model : model :=
  fun topic_id =>
    if topic_id =? 0
    then [(py "chat", 0.9%float); (py "chien", 0.7%float)]
    else [(py "a", 0.5%float)].

(** Every topic id with the keywords [("a", 0.5)]. *)
Definition constant_model : model := fun _ => [(py "a", 0.5%float)].

(** Every topic id with the word "a" twice: [("a", 0.8), ("a", 0.5)]. *)
Definition repeating_model : model :=
  fun _ => [(py "a", 0.8%float); (py "a", 0.5%float)].

Definition fresh_session : session := Session empty_graph [].

(** ** What a run leaves in the store *)

(** The [keywords] property that the topic batch leaves on a Topic node
    with key [k] whose property was [o]: the keywords of the last record
    with that key, if there is one. *)
Definition last_keywords (k : str) (tqs : list topic_query) (o : option str)
  : option str :=
  foldl (fun acc q => if bool_decide (k = tq_key q) then Some (tq_keywords q) else acc)
        o tqs.

(** Every key of the batch has a Topic node. *)
Definition topics_present (tqs : list topic_query) (g : graph) : Prop :=
  forall q, q ∈ tqs -> positions (is_topic (tq_key q)) (nodes g) <> [].

(** Every Topic node carries the keywords that the batch gives it. *)
Definition topics_settled (tqs : list topic_query) (g : graph) : Prop :=
  forall i k o, nodes g !! i = Some (Topic k o) -> last_keywords k tqs o = o.

(** The topic batch on one node whose key exists already. *)
Definition topic_rows_on_node (tqs : list topic_query) (n : node) : node :=
  foldl (fun n q => if is_topic (tq_key q) n then with_keywords (tq_keywords q) n else n)
        n tqs.

(** A source pattern is bound, and every bound source is related to every
    bound target. *)
Definition linked (psrc pdst : node -> bool) (pat : nat -> nat -> rel -> bool)
    (g : graph) : Prop :=
  positions psrc (nodes g) <> []
  /\ forall a b, a ∈ positions psrc (nodes g) -> b ∈ positions pdst (nodes g) ->
       positions (pat a b) (rels g) <> [].

(** Every record of the document batch has its Document node, related to
    the Topic nodes of its key. *)
Definition documents_linked (dqs : list doc_query) (g : graph) : Prop :=
  forall q, q ∈ dqs ->
    linked (is_document (dq_content q)) (is_topic (dq_topic_key q))
           is_belongs_to g.

(** The parameters of one keyword statement. *)
Definition keyword_row := (str * str * weight)%type.

Definition keyword_statement (r : keyword_row) : statement :=
  MergeKeyword r.1.1 r.1.2 r.2.

Definition run_keyword_row (g : graph) (r : keyword_row) : graph :=
  run_keyword g r.1.1 r.1.2 r.2.

Definition keyword_rows (topic_model : model) (topic_ids : list Z)
  : list keyword_row :=
  topic_ids ≫= (fun topic_id =>
    match generate_topic_key (topic_model topic_id) with
    | Some topic_key =>
        map (fun '(keyword, strength) => (keyword, topic_key, strength))
            (topic_model topic_id)
    | None => []
    end).

(** The statements of the keyword loop, in the order in which it runs
    them. *)
Definition keyword_batch (topic_model : model) (topic_ids : list Z)
  : list statement :=
  topic_ids ≫= (fun topic_id =>
    match generate_topic_key (topic_model topic_id) with
    | Some topic_key =>
        map (fun '(keyword, strength) =>
               MergeKeyword keyword topic_key strength)
            (topic_model topic_id)
    | None => []
    end).

(** Every keyword statement has its Keyword node, related to the Topic
    nodes of its key. *)
Definition keywords_linked (rows : list keyword_row) (g : graph) : Prop :=
  forall r, r ∈ rows ->
    linked (is_keyword r.1.1) (is_topic r.1.2) is_represents g.

(** The relationships that the statement of a keyword row binds. *)
Definition row_binds (ns : list node) (r : keyword_row) (e : rel) : bool :=
  in_pairs is_represents
    (list_prod (positions (is_keyword r.1.1) ns) (positions (is_topic r.1.2) ns)) e.

(** The [strength] that the keyword statements leave on a REPRESENTS
    relationship from a Keyword node [w] to a Topic node [k] whose property
    was [o]: the strength of the last statement for [w] and [k]. *)
Definition last_strength (w k : str) (rows : list keyword_row)
    (o : option weight) : option weight :=
  foldl (fun acc (r : keyword_row) =>
           if bool_decide (w = r.1.1) && bool_decide (k = r.1.2)
           then Some r.2 else acc)
        o rows.

(** Every REPRESENTS relationship carries the strength that the keyword
    statements give it. *)
Definition strengths_settled (rows : list keyword_row) (g : graph) : Prop :=
  forall j x t o w k ok,
    rels g !! j = Some (REPRESENTS x t o) ->
    nodes g !! x = Some (Keyword w) ->
    nodes g !! t = Some (Topic k ok) ->
    last_strength w k rows o = o.

(** The keyword statements on one relationship, between nodes [ns] that
    hold all their end points already. *)
Definition keyword_rows_on_rel (ns : list node) (rows : list keyword_row)
    (e : rel) : rel :=
  foldl (fun e r => if row_binds ns r e then with_strength r.2 e else e) e rows.

(** No two nodes with the same label and key, and no two relationships of
    the same type between the same two nodes. *)
Record no_duplicates (g : graph) : Prop := NoDuplicates {
  unique_topic : forall k, (length (positions (is_topic k) (nodes g)) <= 1)%nat;
  unique_document :
    forall c, (length (positions (is_document c) (nodes g)) <= 1)%nat;
  unique_keyword :
    forall w, (length (positions (is_keyword w) (nodes g)) <= 1)%nat;
  unique_belongs_to :
    forall d t, (length (positions (is_belongs_to d t) (rels g)) <= 1)%nat;
  unique_represents :
    forall k t, (length (positions (is_represents k t) (rels g)) <= 1)%nat
}.

(** ** What the statements keep *)

(** A node without its mutable [keywords] property, and a relationship
    without its mutable [strength] property: label and key, type and end
    points. *)
Definition node_key (n : node) : node :=
  match n with Topic k _ => Topic k None | _ => n end.

Definition rel_ends (e : rel) : rel :=
  match e with REPRESENTS a b _ => REPRESENTS a b None | _ => e end.

(** Every node and every relationship of [g] is in [g'], at the same
    position, with the same label and key, type and end points. *)
Definition keeps (g g' : graph) : Prop :=
  (forall i n, nodes g !! i = Some n ->
     exists n', nodes g' !! i = Some n' /\ node_key n' = node_key n)
  /\ (forall j e, rels g !! j = Some e ->
        exists e', rels g' !! j = Some e' /\ rel_ends e' = rel_ends e).

(** Every BELONGS_TO relationship leads from a Document node to a Topic
    node, and every REPRESENTS relationship from a Keyword node to a Topic
    node. *)
Definition well_typed (g : graph) : Prop :=
  forall j e, rels g !! j = Some e ->
    match e with
    | BELONGS_TO d t =>
        (exists c, nodes g !! d = Some (Document c))
        /\ exists k o, nodes g !! t = Some (Topic k o)
    | REPRESENTS x t _ =>
        (exists w, nodes g !! x = Some (Keyword w))
        /\ exists k o, nodes g !! t = Some (Topic k o)
    end.

(** ** Code points that UTF-8 encodes *)

(** A Unicode scalar value: a code point of the Unicode range that is not
    a surrogate. *)
Definition encodable (c : Z) : bool :=
  (0 <=? c) && (c <? 0x110000) && negb ((0xD800 <=? c) && (c <=? 0xDFFF)).


(** * Properties *)

(** ** Test vectors *)

Example md5_empty :
  MD5.hexdigest [] = py "d41d8cd98f00b204e9800998ecf8427e".
Proof. vm_compute. reflexivity. Qed.

Example md5_abc :
  option_map MD5.hexdigest (encode (py "abc"))
  = Some (py "900150983cd24fb0d6963f7d28e17f72").
Proof. vm_compute. reflexivity. Qed.

Example md5_long :
  option_map MD5.hexdigest
    (encode (py "12345678901234567890123456789012345678901234567890123456789012345678901234567890"))
  = Some (py "57edf4a22be3c955ac49da2e2107b67a").
Proof. vm_compute. reflexivity. Qed.

Example md5_padding_55 :
  MD5.hexdigest (replicate 55 97) = py "ef1772b6dff9a122358552954ad0df65".
Proof. vm_compute. reflexivity. Qed.

Example md5_padding_56 :
  MD5.hexdigest (replicate 56 97) = py "3b0c8ac703f828b04c6c197006d17218".
Proof. vm_compute. reflexivity. Qed.

Example md5_padding_64 :
  MD5.hexdigest (replicate 64 97) = py "014842d480b571495a4a0363793f7367".
Proof. vm_compute. reflexivity. Qed.

Example encode_non_ascii :
  encode [233; 116; 233; 95; 8364; 95; 128512]
  = Some [195; 169; 116; 195; 169; 95; 226; 130; 172; 95; 240; 159; 152; 128].
Proof. reflexivity. Qed.

Example encode_lone_surrogate : encode [0xD800] = None.
Proof. reflexivity. Qed.

Example key_non_ascii (w1 w2 w3 : weight) :
  generate_topic_key [([233; 116; 233], w1); ([8364], w2); ([128512], w3)]
  = Some (py "1f75336f60ad897bc33503abf30b61fc").
Proof. vm_compute. reflexivity. Qed.

Example key_chat :
  generate_topic_key [(py "chat", 0.9%float); (py "chien", 0.7%float)]
  = Some (py "1541bb6ac71a71c3d4e39e6071a1f98f").
Proof. vm_compute. reflexivity. Qed.

(** ** The resolver *)

Lemma join_cons sep w x ws :
  join sep (w :: x :: ws) = w ++ sep ++ join sep (x :: ws).
Proof. reflexivity. Qed.

Lemma foldl_concat_app (sep : str) ws a b :
  foldl (fun acc y => acc ++ sep ++ y) (a ++ b) ws
  = a ++ foldl (fun acc y => acc ++ sep ++ y) b ws.
Proof.
  revert a b. induction ws as [|y ws IH]; intros a b; simpl; [done|].
  by rewrite <- IH, <- (assoc (++)).
Qed.

Lemma join_spec_concat sep ws : join sep ws = spec_concat sep ws.
Proof.
  destruct ws as [|w ws]; [done|]. unfold spec_concat.
  revert w. induction ws as [|x ws IH]; intros w; [done|].
  rewrite join_cons, IH. simpl.
  by rewrite !foldl_concat_app.
Qed.

Lemma le_bytes_range n x : Forall (fun b => 0 <= b < 256) (MD5.le_bytes n x).
Proof.
  revert x. induction n as [|n IH]; intros x; simpl; constructor; [|done].
  apply Z.mod_pos_bound. lia.
Qed.

Lemma le_bytes_length n x : length (MD5.le_bytes n x) = n.
Proof. revert x. induction n as [|n IH]; intros x; simpl; congruence. Qed.

Lemma digest_range msg : Forall (fun b => 0 <= b < 256) (MD5.digest msg).
Proof.
  unfold MD5.digest. cbv zeta.
  repeat (apply Forall_app; split); apply le_bytes_range.
Qed.

Lemma digest_length msg : length (MD5.digest msg) = 16%nat.
Proof.
  unfold MD5.digest. cbv zeta. rewrite !length_app, !le_bytes_length. done.
Qed.

Lemma hex_digit_alphabet d :
  0 <= d < 16 ->
  MD5.hex_digit d = nth (Z.to_nat d) hex_alphabet 0
  /\ MD5.hex_digit d ∈ hex_alphabet.
Proof.
  intros Hd.
  assert (Hcases : Forall (fun d => MD5.hex_digit d = nth (Z.to_nat d) hex_alphabet 0
                      /\ MD5.hex_digit d ∈ hex_alphabet) (seqZ 0 16)).
  { apply (bool_decide_unpack _). vm_compute. exact I. }
  rewrite Forall_forall in Hcases. apply Hcases.
  apply elem_of_seqZ. lia.
Qed.

Lemma hex_pairs_spec bs :
  Forall (fun b => 0 <= b < 256) bs ->
  let hex := flat_map (fun b => [MD5.hex_digit (b / 16); MD5.hex_digit (b mod 16)]) bs in
  hex = spec_lower_hex bs
  /\ length hex = (2 * length bs)%nat
  /\ Forall (fun c => c ∈ hex_alphabet) hex.
Proof.
  induction 1 as [|b bs Hb Hbs IH]; [by repeat split|].
  destruct IH as (IH1 & IH2 & IH3).
  assert (0 <= b / 16 < 16) as Hhi
    by (split; [apply Z.div_pos|apply Z.div_lt_upper_bound]; lia).
  assert (0 <= b mod 16 < 16) as Hlo by (apply Z.mod_pos_bound; lia).
  destruct (hex_digit_alphabet _ Hhi) as [Hh1 Hh2].
  destruct (hex_digit_alphabet _ Hlo) as [Hl1 Hl2].
  cbn zeta in *. repeat split.
  - change (spec_lower_hex (b :: bs)) with
      (nth (Z.to_nat (b / 16)) hex_alphabet 0
         :: nth (Z.to_nat (b mod 16)) hex_alphabet 0 :: spec_lower_hex bs).
    rewrite <- IH1, <- Hh1, <- Hl1. reflexivity.
  - simpl. rewrite IH2. lia.
  - simpl. constructor; [exact Hh2|]. constructor; [exact Hl2|exact IH3].
Qed.

Lemma hexdigest_spec msg :
  MD5.hexdigest msg = spec_lower_hex (MD5.digest msg)
  /\ length (MD5.hexdigest msg) = 32%nat
  /\ Forall (fun c => c ∈ hex_alphabet) (MD5.hexdigest msg).
Proof.
  destruct (hex_pairs_spec _ (digest_range msg)) as (H1 & H2 & H3).
  rewrite digest_length in H2. done.
Qed.

(** The bit operations of the encoder are the arithmetic of the table. *)
Lemma lor_continuation x : 0 <= x < 64 -> Z.lor 0x80 x = 128 + x.
Proof.
  intros Hx.
  assert (Forall (fun x => Z.lor 0x80 x = 128 + x) (seqZ 0 64)) as Hall
    by (apply (bool_decide_unpack _); vm_compute; exact I).
  rewrite Forall_forall in Hall. apply Hall, elem_of_seqZ. lia.
Qed.

Lemma lor_lead2 x : 0 <= x < 32 -> Z.lor 0xC0 x = 192 + x.
Proof.
  intros Hx.
  assert (Forall (fun x => Z.lor 0xC0 x = 192 + x) (seqZ 0 32)) as Hall
    by (apply (bool_decide_unpack _); vm_compute; exact I).
  rewrite Forall_forall in Hall. apply Hall, elem_of_seqZ. lia.
Qed.

Lemma lor_lead3 x : 0 <= x < 16 -> Z.lor 0xE0 x = 224 + x.
Proof.
  intros Hx.
  assert (Forall (fun x => Z.lor 0xE0 x = 224 + x) (seqZ 0 16)) as Hall
    by (apply (bool_decide_unpack _); vm_compute; exact I).
  rewrite Forall_forall in Hall. apply Hall, elem_of_seqZ. lia.
Qed.

Lemma lor_lead4 x : 0 <= x < 8 -> Z.lor 0xF0 x = 240 + x.
Proof.
  intros Hx.
  assert (Forall (fun x => Z.lor 0xF0 x = 240 + x) (seqZ 0 8)) as Hall
    by (apply (bool_decide_unpack _); vm_compute; exact I).
  rewrite Forall_forall in Hall. apply Hall, elem_of_seqZ. lia.
Qed.

Lemma land_low6 x : 0 <= x -> Z.land x 0x3F = x mod 64.
Proof. intros Hx. change 0x3F with (Z.ones 6). by rewrite Z.land_ones. Qed.

Lemma shiftr_div x n : 0 <= n -> Z.shiftr x n = x / 2 ^ n.
Proof. intros Hn. by apply Z.shiftr_div_pow2. Qed.

Lemma div_range x d n : 0 < d -> 0 <= x < d * n -> 0 <= x / d < n.
Proof.
  intros Hd Hx. split; [apply Z.div_pos; lia|apply Z.div_lt_upper_bound; lia].
Qed.

Lemma utf8_char_spec c : utf8_char c = spec_utf8_char c.
Proof.
  unfold utf8_char, spec_utf8_char.
  rewrite (shiftr_div c 6), (shiftr_div c 12), (shiftr_div c 18) by lia.
  change (2 ^ 6) with 64. change (2 ^ 12) with 4096. change (2 ^ 18) with 262144.
  destruct (Z.ltb_spec c 0) as [H0|H0].
  { repeat (destruct (decide _) as [?|?]; [lia|]). done. }
  assert (0 <= c mod 64 < 64) as Hlow by (apply Z.mod_pos_bound; lia).
  assert (0 <= (c / 64) mod 64 < 64) as Hmid by (apply Z.mod_pos_bound; lia).
  assert (0 <= (c / 4096) mod 64 < 64) as Hhigh by (apply Z.mod_pos_bound; lia).
  assert (0 <= c / 64) as H64 by (apply Z.div_pos; lia).
  assert (0 <= c / 4096) as H4096 by (apply Z.div_pos; lia).
  rewrite !land_low6, !lor_continuation by done.
  destruct (Z.ltb_spec c 0x80) as [H1|H1].
  { destruct (decide _) as [?|?]; [done|lia]. }
  destruct (decide (0 <= c <= 0x7F)) as [?|_]; [lia|].
  destruct (Z.ltb_spec c 0x800) as [H2|H2].
  { destruct (decide _) as [?|?]; [|lia].
    by rewrite lor_lead2 by (apply div_range; lia). }
  destruct (decide (0x80 <= c <= 0x7FF)) as [?|_]; [lia|].
  destruct (Z.ltb_spec c 0x10000) as [H3|H3].
  { destruct (decide (0xD800 <= c <= 0xDFFF)) as [Hs|Hs].
    - destruct (Z.leb_spec 0xD800 c), (Z.leb_spec c 0xDFFF); try lia. done.
    - assert ((0xD800 <=? c) && (c <=? 0xDFFF) = false) as ->.
      { destruct (Z.leb_spec 0xD800 c), (Z.leb_spec c 0xDFFF);
          simpl; try done; lia. }
      destruct (decide (0x800 <= c <= 0xFFFF)) as [?|?]; [|lia].
      by rewrite lor_lead3 by (apply div_range; lia). }
  destruct (decide (0xD800 <= c <= 0xDFFF)) as [?|_]; [lia|].
  destruct (decide (0x800 <= c <= 0xFFFF)) as [?|_]; [lia|].
  destruct (Z.ltb_spec c 0x110000) as [H6|H6].
  - destruct (decide _) as [?|?]; [|lia].
    by rewrite lor_lead4 by (apply div_range; lia).
  - destruct (decide _) as [?|?]; [lia|done].
Qed.

Lemma encode_spec s : encode s = spec_utf8 s.
Proof.
  unfold spec_utf8. induction s as [|c s IH]; [done|].
  cbn [encode]. rewrite IH, utf8_char_spec. cbn [mapM].
  destruct (spec_utf8_char c) as [b|]; [|done]. simpl.
  unfold bytes. destruct (mapM _ s); reflexivity.
Qed.

(** C4: the key is the lowercase hexadecimal MD5 digest of the UTF-8
    encoding of the words joined by "_"; the weights play no part; the key
    of [("chat", 0.9), ("chien", 0.7)] is the digest of "chat_chien".  The
    encoding is UTF-8 proper: the words "été", "€" and an emoji, of two,
    three and four octets a character, give the digest of the encoded
    octets, and a word with a lone surrogate has no key. *)
Theorem generate_topic_key_spec :
  (forall kws, generate_topic_key kws = spec_resolve kws)
  /\ (forall kws (w : weight),
        generate_topic_key kws = generate_topic_key (map (fun kw => (kw.1, w)) kws))
  /\ (forall b, length (MD5.hexdigest b) = 32%nat
                /\ Forall (fun c => c ∈ hex_alphabet) (MD5.hexdigest b))
  /\ generate_topic_key [(py "chat", 0.9%float); (py "chien", 0.7%float)]
     = MD5.hexdigest <$> encode (py "chat_chien")
  /\ MD5.hexdigest <$> encode (py "chat_chien")
     = Some (py "1541bb6ac71a71c3d4e39e6071a1f98f")
  /\ (forall w1 w2 w3 : weight,
        generate_topic_key [([233; 116; 233], w1); ([8364], w2); ([128512], w3)]
        = Some (py "1f75336f60ad897bc33503abf30b61fc"))
  /\ spec_utf8 [233; 116; 233; 95; 8364; 95; 128512]
     = Some [195; 169; 116; 195; 169; 95; 226; 130; 172; 95; 240; 159; 152; 128]
  /\ (forall w1 w2 : weight,
        generate_topic_key [(py "chat", w1); ([0xD800], w2)] = None
        /\ generate_topic_key [([0xDFFF], w1)] = None)
  /\ (forall w : weight,
        generate_topic_key [([0xD7FF], w)]
        = Some (MD5.hexdigest [237; 159; 191])
        /\ generate_topic_key [([0xE000], w)]
           = Some (MD5.hexdigest [238; 128; 128])
        /\ generate_topic_key [([0x10FFFF], w)]
           = Some (MD5.hexdigest [244; 143; 191; 191])).
Proof.
  split; [|split; [|split; [|split; [|split; [|split; [|split; [|split]]]]]]].
  - intros kws. unfold generate_topic_key, spec_resolve. cbv zeta.
    rewrite join_spec_concat, encode_spec.
    replace (map (fun '(kw, _) => kw) kws) with (kws.*1)
      by (apply list_fmap_ext; by intros ? []).
    destruct (spec_utf8 _) as [b|]; [|done]. simpl.
    by rewrite (proj1 (hexdigest_spec b)).
  - intros kws w. unfold generate_topic_key. cbv zeta.
    by rewrite map_map.
  - intros b. apply hexdigest_spec.
  - vm_compute. reflexivity.
  - vm_compute. reflexivity.
  - intros w1 w2 w3. vm_compute. reflexivity.
  - vm_compute. reflexivity.
  - intros w1 w2. split; vm_compute; reflexivity.
  - intros w. repeat split; vm_compute; reflexivity.
Qed.

(** C8: the key depends on the order of the words: "a", "b" and "b", "a"
    hold the same words and resolve to different keys. *)
Theorem generate_topic_key_order_sensitive (w1 w2 : weight) :
  [(py "a", w1); (py "b", w2)] ≡ₚ [(py "b", w2); (py "a", w1)]
  /\ generate_topic_key [(py "a", w1); (py "b", w2)]
     = Some (py "dbf08e00b01fd58a4a5967753b43784f")
  /\ generate_topic_key [(py "b", w2); (py "a", w1)]
     = Some (py "913be2f59174b62430e2b97b0874ec74")
  /\ generate_topic_key [(py "a", w1); (py "b", w2)]
     <> generate_topic_key [(py "b", w2); (py "a", w1)].
Proof.
  split; [apply Permutation_swap|].
  split; [vm_compute; reflexivity|].
  split; [vm_compute; reflexivity|].
  vm_compute. discriminate.
Qed.

(** C9: on the empty keyword sequence the resolver returns the digest of
    the empty byte string, the constant d41d8cd98f00b204e9800998ecf8427e. *)
Theorem generate_topic_key_empty :
  generate_topic_key [] = Some (MD5.hexdigest [])
  /\ encode (py "") = Some []
  /\ MD5.hexdigest [] = py "d41d8cd98f00b204e9800998ecf8427e".
Proof. vm_compute. repeat split; reflexivity. Qed.

(** ** Patterns and positions *)

Section positions.
Context {A : Type}.
Implicit Types (p : A -> bool) (f : A -> A) (l : list A).

Lemma elem_of_positions p l i :
  i ∈ positions p l <-> exists x, l !! i = Some x /\ p x = true.
Proof.
  unfold positions. rewrite list_elem_of_filter, elem_of_seq. split.
  - intros [Hp _]. destruct (l !! i) as [x|]; [|done].
    exists x. split; [done|]. by apply Is_true_true.
  - intros (x & Hx & Hp). rewrite Hx. simpl. split; [by apply Is_true_true|].
    apply lookup_lt_Some in Hx. lia.
Qed.

Lemma NoDup_positions p l : NoDup (positions p l).
Proof. apply NoDup_filter, NoDup_seq. Qed.

Lemma positions_nil p l :
  positions p l = [] <-> forall i x, l !! i = Some x -> p x = false.
Proof.
  split.
  - intros Hnil i x Hx. destruct (p x) eqn:Hp; [|done].
    assert (i ∈ positions p l) as Hi by (apply elem_of_positions; eauto).
    rewrite Hnil in Hi. by apply not_elem_of_nil in Hi.
  - intros Hall. destruct (positions p l) as [|i ids] eqn:E; [done|].
    assert (i ∈ positions p l) as Hi by (rewrite E; left).
    apply elem_of_positions in Hi as (x & Hx & Hp).
    rewrite (Hall _ _ Hx) in Hp. done.
Qed.

Lemma positions_ext p q l l' :
  length l = length l' ->
  (forall i x, l !! i = Some x -> exists y, l' !! i = Some y /\ q y = p x) ->
  positions q l' = positions p l.
Proof.
  intros Hlen Hpt. unfold positions. rewrite <- Hlen.
  apply list_filter_iff. intros i.
  destruct (l !! i) as [x|] eqn:Hx.
  - destruct (Hpt _ _ Hx) as (y & Hy & Hq). rewrite Hy. simpl. by rewrite Hq.
  - apply lookup_ge_None in Hx. rewrite Hlen in Hx.
    apply lookup_ge_None in Hx. rewrite Hx. done.
Qed.

Lemma filter_ext_elem (P Q : nat -> Prop)
    `{!forall x, Decision (P x), !forall x, Decision (Q x)} (ns : list nat) :
  (forall x, x ∈ ns -> P x <-> Q x) -> filter P ns = filter Q ns.
Proof.
  induction ns as [|n ns IH]; intros Hext; [done|].
  rewrite !filter_cons, IH by (intros; apply Hext; by right).
  apply decide_ext, Hext. left.
Qed.

Lemma positions_snoc p l x :
  positions p (l ++ [x])
  = positions p l ++ (if p x then [length l] else []).
Proof.
  unfold positions. rewrite length_app. simpl.
  rewrite seq_app, filter_app. simpl. f_equal.
  - apply filter_ext_elem. intros i Hi. apply elem_of_seq in Hi.
    rewrite lookup_app_l by lia. done.
  - rewrite filter_cons, filter_nil.
    rewrite list_lookup_middle by done. simpl.
    destruct (p x); by case_decide.
Qed.

Lemma lookup_update_where p f l i :
  update_where p f l !! i = (fun x => if p x then f x else x) <$> l !! i.
Proof. apply list_lookup_fmap. Qed.

Lemma update_where_absent p f l :
  positions p l = [] -> update_where p f l = l.
Proof.
  intros Hnil. apply list_eq. intros i. rewrite lookup_update_where.
  destruct (l !! i) as [x|] eqn:Hx; [|done]. simpl.
  by rewrite (proj1 (positions_nil p l) Hnil _ _ Hx).
Qed.

Lemma update_where_app p f l1 l2 :
  update_where p f (l1 ++ l2) = update_where p f l1 ++ update_where p f l2.
Proof. apply fmap_app. Qed.

(** Altering the bound positions one at a time. *)
Lemma lookup_foldl_alter f ids l j :
  NoDup ids ->
  foldl (fun l i => alter f i l) l ids !! j
  = if bool_decide (j ∈ ids) then f <$> l !! j else l !! j.
Proof.
  intros Hnd. revert l. induction Hnd as [|i ids Hi Hnd IH]; intros l; simpl.
  { done. }
  rewrite IH. destruct (decide (j = i)) as [->|Hne].
  - rewrite (bool_decide_eq_false_2 _ Hi), list_lookup_alter_eq.
    rewrite bool_decide_eq_true_2; [done|left].
  - rewrite !list_lookup_alter_ne by done.
    apply (f_equal (fun b : bool => if b then _ else _)).
    apply bool_decide_ext. rewrite elem_of_cons.
    split; [by right|by intros [?|?]].
Qed.

Lemma foldl_alter_positions p f l :
  foldl (fun l i => alter f i l) l (positions p l) = update_where p f l.
Proof.
  apply list_eq. intros j.
  rewrite lookup_foldl_alter by apply NoDup_positions.
  rewrite lookup_update_where.
  destruct (l !! j) as [x|] eqn:Hx; simpl.
  - destruct (p x) eqn:Hp.
    + rewrite bool_decide_eq_true_2; [done|]. apply elem_of_positions. eauto.
    + rewrite bool_decide_eq_false_2; [done|].
      intros (y & Hy & Hpy)%elem_of_positions. congruence.
  - by case_bool_decide.
Qed.

End positions.

Lemma positions_not_nil {A} (p : A -> bool) (l : list A) :
  positions p l <> [] <-> exists i x, l !! i = Some x /\ p x = true.
Proof.
  split.
  - destruct (positions p l) as [|i ids] eqn:E; [done|]. intros _.
    assert (i ∈ positions p l) as Hi by (rewrite E; left).
    apply elem_of_positions in Hi. eauto.
  - intros (i & x & Hx & Hp) Hnil.
    rewrite (proj1 (positions_nil p l) Hnil _ _ Hx) in Hp. done.
Qed.

Lemma update_where_twice {A} (p q : A -> bool) (f : A -> A) (l : list A) :
  (forall x, q (f x) = q x) -> (forall x, f (f x) = f x) ->
  update_where q f (update_where p f l)
  = update_where (fun x => p x || q x) f l.
Proof.
  intros Hq Hf. unfold update_where. rewrite <- list_fmap_compose.
  apply list_fmap_ext. intros _ x _. simpl.
  destruct (p x); simpl.
  - rewrite Hq, Hf. by destruct (q x).
  - done.
Qed.

Lemma update_where_ext {A} (p q : A -> bool) (f : A -> A) (l : list A) :
  (forall x, p x = q x) -> update_where p f l = update_where q f l.
Proof.
  intros Hpq. apply list_fmap_ext. intros _ x _. by rewrite Hpq.
Qed.

Lemma positions_update_where {A} (p q : A -> bool) (f : A -> A) (l : list A) :
  (forall x, q (f x) = q x) ->
  positions q (update_where p f l) = positions q l.
Proof.
  intros Hq. apply positions_ext.
  - unfold update_where. by rewrite length_fmap.
  - intros i x Hx. rewrite lookup_update_where, Hx. simpl.
    eexists. split; [done|]. destruct (p x); [apply Hq|done].
Qed.

Lemma update_where_id {A} (p : A -> bool) (l : list A) : update_where p id l = l.
Proof.
  unfold update_where. rewrite <- (list_fmap_id l) at 2.
  apply list_fmap_ext. intros _ x _. by destruct (p x).
Qed.

Lemma positions_app_present {A} (p : A -> bool) (l k : list A) :
  positions p l <> [] -> positions p (l ++ k) <> [].
Proof.
  rewrite !positions_not_nil. intros (i & x & Hx & Hp).
  exists i, x. split; [|done]. by apply lookup_app_l_Some.
Qed.

Lemma elem_of_list_prod {A B} (l : list A) (k : list B) a b :
  (a, b) ∈ list_prod l k <-> a ∈ l /\ b ∈ k.
Proof. by rewrite !list_elem_of_In, in_prod_iff. Qed.

(** ** [MERGE] and [SET] on the relationships *)

Lemma foldl_set_keywords v g ids :
  foldl (set_keywords v) g ids
  = Graph (foldl (fun l i => alter (with_keywords v) i l) (nodes g) ids) (rels g).
Proof. revert g. induction ids as [|i ids IH]; intros [ns rs]; simpl; [done|]. by rewrite IH. Qed.

Lemma foldl_set_strength s g ids :
  foldl (set_strength s) g ids
  = Graph (nodes g) (foldl (fun l i => alter (with_strength s) i l) (rels g) ids).
Proof. revert g. induction ids as [|i ids IH]; intros [ns rs]; simpl; [done|]. by rewrite IH. Qed.

(** A [MERGE] followed by a [SET] on what it bound, on one list. *)
Lemma merge_then_set {A} (p : A -> bool) (f : A -> A) (fresh : A) (l : list A) :
  foldl (fun l i => alter f i l)
        (match positions p l with [] => l ++ [fresh] | _ => l end)
        (match positions p l with [] => [length l] | ids => ids end)
  = update_where p f l ++ fresh_if_absent p (f fresh) l.
Proof.
  unfold fresh_if_absent. destruct (positions p l) as [|i ids] eqn:E.
  - simpl. rewrite update_where_absent by done.
    replace (length l) with (length l + 0)%nat by lia.
    by rewrite alter_app_r.
  - rewrite <- E, foldl_alter_positions, app_nil_r. done.
Qed.

(** Merging, one pair of end points after the other, a relationship and
    applying a [SET] to it. *)
Section merge_pairs.
Context (pat : nat -> nat -> rel -> bool) (fresh : nat -> nat -> rel)
        (f : rel -> rel).
Hypothesis pat_fresh : forall a b, pat a b (f (fresh a b)) = true.
Hypothesis pat_f : forall a b e, pat a b (f e) = pat a b e.
Hypothesis f_idem : forall e, f (f e) = f e.

Lemma in_pairs_f ps e : in_pairs pat ps (f e) = in_pairs pat ps e.
Proof.
  induction ps as [|[a b] ps IH]; simpl; [done|]. by rewrite pat_f, IH.
Qed.

Lemma in_pairs_true ps e :
  in_pairs pat ps e = true <-> exists ab, ab ∈ ps /\ pat ab.1 ab.2 e = true.
Proof.
  unfold in_pairs. rewrite existsb_exists. split.
  - intros ([a b] & Hin & Hp). exists (a, b). by rewrite list_elem_of_In.
  - intros ([a b] & Hin & Hp). exists (a, b). by rewrite <- list_elem_of_In.
Qed.

Lemma merge_set_rel_present l ab :
  positions (pat ab.1 ab.2) (merge_set_rel pat fresh f l ab) <> [].
Proof.
  apply positions_not_nil. unfold merge_set_rel, fresh_if_absent.
  destruct (positions (pat ab.1 ab.2) l) as [|i ids] eqn:E.
  - exists (length l), (f (fresh ab.1 ab.2)). split; [|apply pat_fresh].
    rewrite update_where_absent by done. by apply list_lookup_middle.
  - assert (i ∈ positions (pat ab.1 ab.2) l) as Hi by (rewrite E; left).
    apply elem_of_positions in Hi as (x & Hx & Hp).
    exists i. eexists. rewrite app_nil_r, lookup_update_where, Hx. simpl.
    split; [done|]. rewrite Hp. by rewrite pat_f.
Qed.

Lemma foldl_merge_set_rel ps l :
  exists news,
    foldl (merge_set_rel pat fresh f) l ps
    = update_where (in_pairs pat ps) f l ++ news
    /\ Forall (fun e => exists ab, ab ∈ ps /\ e = f (fresh ab.1 ab.2)) news
    /\ ((forall ab, ab ∈ ps -> positions (pat ab.1 ab.2) l <> []) -> news = []).
Proof.
  revert l. induction ps as [|ab ps IH]; intros l.
  { exists []. simpl. rewrite app_nil_r. split; [|done].
    unfold update_where. by rewrite list_fmap_id. }
  simpl. destruct (IH (merge_set_rel pat fresh f l ab)) as (news & Heq & Hnews & Hsat).
  exists (fresh_if_absent (pat ab.1 ab.2) (f (fresh ab.1 ab.2)) l ++ news).
  split; [|split].
  - rewrite Heq. unfold merge_set_rel at 1.
    rewrite update_where_app, <- (assoc (++)). f_equal; [|f_equal].
    + rewrite update_where_twice by (apply in_pairs_f || done).
      apply update_where_ext. intros e. by destruct ab.
    + unfold fresh_if_absent. destruct (positions _ l); [|done].
      simpl. by rewrite in_pairs_f, f_idem, Tauto.if_same.
  - apply Forall_app. split.
    + unfold fresh_if_absent. destruct (positions _ l); [|done].
      constructor; [|done]. exists ab. split; [left|done].
    + eapply Forall_impl; [exact Hnews|]. intros e (ab' & Hin & ->).
      exists ab'. split; [by right|done].
  - intros Hall. rewrite Hsat.
    + unfold fresh_if_absent.
      destruct (positions (pat ab.1 ab.2) l) eqn:E; [|done].
      exfalso. by apply (Hall ab); [left|].
    + intros ab' Hin. unfold merge_set_rel, fresh_if_absent.
      pose proof (Hall ab (list_elem_of_here _ _)) as Hhead.
      destruct (positions (pat ab.1 ab.2) l); [done|].
      rewrite app_nil_r, positions_update_where by apply pat_f.
      apply Hall. by right.
Qed.

Lemma positions_merge_set_rel (q : rel -> bool) l ab :
  (forall e, q (f e) = q e) ->
  positions q (merge_set_rel pat fresh f l ab)
  = positions q l
    ++ match positions (pat ab.1 ab.2) l with
       | [] => if q (f (fresh ab.1 ab.2)) then [length l] else []
       | _ => []
       end.
Proof.
  intros Hq. unfold merge_set_rel, fresh_if_absent.
  destruct (positions (pat ab.1 ab.2) l).
  - rewrite positions_snoc, positions_update_where by done.
    unfold update_where. by rewrite length_fmap.
  - by rewrite !app_nil_r, positions_update_where.
Qed.

Lemma foldl_merge_set_rel_keeps (q : rel -> bool) ps l :
  (forall e, q (f e) = q e) ->
  positions q l <> [] ->
  positions q (foldl (merge_set_rel pat fresh f) l ps) <> [].
Proof.
  intros Hq. revert l. induction ps as [|ab ps IH]; intros l Hl; simpl; [done|].
  apply IH. rewrite positions_merge_set_rel by done.
  by intros [? _]%app_eq_nil.
Qed.

Lemma foldl_merge_set_rel_present ps l ab :
  ab ∈ ps ->
  positions (pat ab.1 ab.2) (foldl (merge_set_rel pat fresh f) l ps) <> [].
Proof.
  revert l. induction ps as [|ab' ps IH]; intros l Hin; simpl.
  { by apply elem_of_nil in Hin. }
  apply elem_of_cons in Hin as [->|Hin]; [|by apply IH].
  apply foldl_merge_set_rel_keeps; [apply pat_f|apply merge_set_rel_present].
Qed.

Lemma foldl_merge_set_rel_other (q : rel -> bool) ps l :
  (forall e, q (f e) = q e) ->
  (forall a b, q (f (fresh a b)) = false) ->
  positions q (foldl (merge_set_rel pat fresh f) l ps) = positions q l.
Proof.
  intros Hq Hfresh. revert l.
  induction ps as [|ab ps IH]; intros l; simpl; [done|].
  rewrite IH, positions_merge_set_rel, Hfresh by done.
  destruct (positions (pat ab.1 ab.2) l); by rewrite app_nil_r.
Qed.

Lemma foldl_merge_set_rel_unique ps l :
  (forall a b x t, pat x t (f (fresh a b)) = true -> x = a /\ t = b) ->
  (forall x t, length (positions (pat x t) l) <= 1)%nat ->
  forall x t,
    (length (positions (pat x t) (foldl (merge_set_rel pat fresh f) l ps)) <= 1)%nat.
Proof.
  intros Hinj. revert l. induction ps as [|ab ps IH]; intros l Hl; simpl; [done|].
  apply IH. intros x t. rewrite positions_merge_set_rel by (intros; apply pat_f).
  destruct (positions (pat ab.1 ab.2) l) eqn:E.
  - destruct (pat x t (f (fresh ab.1 ab.2))) eqn:Hp.
    + apply Hinj in Hp as [-> ->]. by rewrite E.
    + rewrite app_nil_r. apply Hl.
  - rewrite app_nil_r. apply Hl.
Qed.

End merge_pairs.

(** ** The rows of the statements *)

Lemma is_topic_fresh k o : is_topic k (Topic k o) = true.
Proof. simpl. by apply bool_decide_eq_true_2. Qed.
Lemma is_document_fresh c : is_document c (Document c) = true.
Proof. simpl. by apply bool_decide_eq_true_2. Qed.
Lemma is_keyword_fresh w : is_keyword w (Keyword w) = true.
Proof. simpl. by apply bool_decide_eq_true_2. Qed.

Lemma is_belongs_to_fresh d t : is_belongs_to d t (BELONGS_TO d t) = true.
Proof. simpl. by rewrite !bool_decide_eq_true_2. Qed.
Lemma is_represents_fresh k t o : is_represents k t (REPRESENTS k t o) = true.
Proof. simpl. by rewrite !bool_decide_eq_true_2. Qed.
Lemma is_represents_with_strength k t s e :
  is_represents k t (with_strength s e) = is_represents k t e.
Proof. by destruct e. Qed.
Lemma is_belongs_to_with_strength d t s e :
  is_belongs_to d t (with_strength s e) = is_belongs_to d t e.
Proof. by destruct e. Qed.
Lemma with_strength_idem s e : with_strength s (with_strength s e) = with_strength s e.
Proof. by destruct e. Qed.
Lemma is_topic_with_keywords k v n : is_topic k (with_keywords v n) = is_topic k n.
Proof. by destruct n. Qed.
Lemma is_document_with_keywords c v n :
  is_document c (with_keywords v n) = is_document c n.
Proof. by destruct n. Qed.
Lemma is_keyword_with_keywords w v n :
  is_keyword w (with_keywords v n) = is_keyword w n.
Proof. by destruct n. Qed.

Lemma merge_node_eq p fresh g :
  p fresh = true ->
  merge_node p fresh g
  = (Graph (merged_nodes p fresh (nodes g)) (rels g),
     positions p (merged_nodes p fresh (nodes g))).
Proof.
  intros Hp. unfold merge_node, match_nodes, merged_nodes, fresh_if_absent.
  destruct (positions p (nodes g)) as [|i ids] eqn:E.
  - rewrite positions_snoc, E, Hp. done.
  - rewrite app_nil_r, E. by destruct g.
Qed.

Lemma run_topic_row_eq g topic :
  run_topic_row g topic
  = Graph (update_where (is_topic (tq_key topic))
                        (with_keywords (tq_keywords topic)) (nodes g)
           ++ fresh_if_absent (is_topic (tq_key topic))
                (Topic (tq_key topic) (Some (tq_keywords topic))) (nodes g))
          (rels g).
Proof.
  unfold run_topic_row, merge_node, match_nodes.
  pose proof (merge_then_set (is_topic (tq_key topic))
                (with_keywords (tq_keywords topic))
                (Topic (tq_key topic) None) (nodes g)) as Hms.
  change (with_keywords _ (Topic _ None))
    with (Topic (tq_key topic) (Some (tq_keywords topic))) in Hms.
  rewrite <- Hms.
  destruct (positions _ (nodes g)); by rewrite foldl_set_keywords.
Qed.

Lemma merge_belongs_to_eq g d t :
  fst (merge_rel (is_belongs_to d t) (BELONGS_TO d t) g)
  = Graph (nodes g) (merge_set_rel is_belongs_to BELONGS_TO id (rels g) (d, t)).
Proof.
  unfold merge_rel, merge_set_rel, fresh_if_absent, update_where. simpl.
  rewrite (list_fmap_ext _ id (rels g)) by (intros ? e _; by destruct (is_belongs_to d t e)).
  rewrite list_fmap_id.
  destruct g as [ns rs]. simpl.
  destruct (positions _ rs); simpl; by rewrite ?app_nil_r.
Qed.

Lemma merge_represents_eq g k t s :
  (let '(g2, rs) := merge_rel (is_represents k t) (REPRESENTS k t None) g in
   foldl (set_strength s) g2 rs)
  = Graph (nodes g)
      (merge_set_rel is_represents (fun a b => REPRESENTS a b None)
                     (with_strength s) (rels g) (k, t)).
Proof.
  unfold merge_rel, merge_set_rel. cbn [fst snd].
  rewrite <- (merge_then_set _ _ (REPRESENTS k t None)).
  destruct (positions _ (rels g)); by rewrite foldl_set_strength.
Qed.

Lemma run_doc_row_eq g doc :
  let ns := merged_nodes (is_document (dq_content doc))
              (Document (dq_content doc)) (nodes g) in
  run_doc_row g doc
  = Graph ns
      (foldl (merge_set_rel is_belongs_to BELONGS_TO id) (rels g)
         (list_prod (positions (is_document (dq_content doc)) ns)
                    (positions (is_topic (dq_topic_key doc)) ns))).
Proof.
  intros ns. unfold run_doc_row.
  rewrite merge_node_eq by apply is_document_fresh. fold ns.
  unfold match_nodes. cbn [nodes].
  generalize (list_prod (positions (is_document (dq_content doc)) ns)
                        (positions (is_topic (dq_topic_key doc)) ns)).
  intros ps. generalize (rels g).
  induction ps as [|[d t] ps IH]; intros rs; simpl; [done|].
  rewrite merge_belongs_to_eq. cbn [nodes rels]. apply IH.
Qed.

Lemma run_keyword_eq g w k s :
  let ns := merged_nodes (is_keyword w) (Keyword w) (nodes g) in
  run_keyword g w k s
  = Graph ns
      (foldl (merge_set_rel is_represents (fun a b => REPRESENTS a b None)
                (with_strength s)) (rels g)
         (list_prod (positions (is_keyword w) ns) (positions (is_topic k) ns))).
Proof.
  intros ns. unfold run_keyword.
  rewrite merge_node_eq by apply is_keyword_fresh. fold ns.
  unfold match_nodes. cbn [nodes].
  generalize (list_prod (positions (is_keyword w) ns)
                        (positions (is_topic k) ns)).
  intros ps. generalize (rels g).
  induction ps as [|[a b] ps IH]; intros rs; simpl; [done|].
  rewrite merge_represents_eq. cbn [nodes rels]. apply IH.
Qed.

(** ** Nodes under [MERGE] *)

Lemma positions_merged_nodes (q p : node -> bool) fresh ns :
  (positions p ns = [] -> q fresh = false) ->
  positions q (merged_nodes p fresh ns) = positions q ns.
Proof.
  intros Hq. unfold merged_nodes, fresh_if_absent.
  destruct (positions p ns) as [|i ids] eqn:E.
  - rewrite positions_snoc, Hq by done. by rewrite app_nil_r.
  - by rewrite app_nil_r.
Qed.

Lemma positions_merged_nodes_present p fresh ns :
  p fresh = true -> positions p (merged_nodes p fresh ns) <> [].
Proof.
  intros Hp. unfold merged_nodes, fresh_if_absent.
  destruct (positions p ns) as [|i ids] eqn:E.
  - rewrite positions_snoc, E, Hp. done.
  - rewrite app_nil_r, E. done.
Qed.

Lemma merged_nodes_present p fresh ns :
  positions p ns <> [] -> merged_nodes p fresh ns = ns.
Proof.
  intros Hp. unfold merged_nodes, fresh_if_absent.
  destruct (positions p ns); [done|]. by rewrite app_nil_r.
Qed.

Lemma lookup_merged_nodes p fresh ns i n :
  merged_nodes p fresh ns !! i = Some n ->
  ns !! i = Some n \/ (positions p ns = [] /\ i = length ns /\ n = fresh).
Proof.
  unfold merged_nodes, fresh_if_absent. rewrite lookup_app_Some.
  intros [Hold|[Hge Hnew]]; [by left|right].
  destruct (positions p ns); [|by rewrite lookup_nil in Hnew].
  apply list_lookup_singleton_Some in Hnew as [Hi ->].
  split; [done|]. split; [lia|done].
Qed.

Lemma merged_nodes_unique (q p : node -> bool) fresh ns :
  (q fresh = true -> positions p ns = [] -> positions q ns = []) ->
  (length (positions q ns) <= 1)%nat ->
  (length (positions q (merged_nodes p fresh ns)) <= 1)%nat.
Proof.
  intros Hq Hle. unfold merged_nodes, fresh_if_absent.
  destruct (positions p ns) eqn:E; [|by rewrite app_nil_r].
  rewrite positions_snoc. destruct (q fresh); [|by rewrite app_nil_r].
  by rewrite Hq.
Qed.

Lemma linked_preserved psrc pdst pat g g' :
  linked psrc pdst pat g ->
  positions psrc (nodes g') = positions psrc (nodes g) ->
  positions pdst (nodes g') = positions pdst (nodes g) ->
  (forall a b, positions (pat a b) (rels g) <> [] ->
               positions (pat a b) (rels g') <> []) ->
  linked psrc pdst pat g'.
Proof.
  intros [Hsrc Hrel] Hs Hd Hmono. split; [by rewrite Hs|].
  intros a b. rewrite Hs, Hd. intros Ha Hb. by apply Hmono, Hrel.
Qed.

(** ** The topic statement *)

Lemma rels_run_topic_row g q : rels (run_topic_row g q) = rels g.
Proof. by rewrite run_topic_row_eq. Qed.

Lemma rels_topic_rows g tqs : rels (foldl run_topic_row g tqs) = rels g.
Proof.
  revert g. induction tqs as [|q tqs IH]; intros g; simpl; [done|].
  by rewrite IH, rels_run_topic_row.
Qed.

Lemma topic_row_present g q :
  positions (is_topic (tq_key q)) (nodes (run_topic_row g q)) <> [].
Proof.
  rewrite run_topic_row_eq. cbn [nodes]. unfold fresh_if_absent.
  destruct (positions (is_topic (tq_key q)) (nodes g)) as [|i ids] eqn:E.
  - rewrite positions_snoc, is_topic_fresh. by intros [_ [=]]%app_eq_nil.
  - rewrite app_nil_r, positions_update_where by apply is_topic_with_keywords.
    by rewrite E.
Qed.

(** A row creates a Topic node only for a key that has none. *)
Lemma topic_row_positions g q k :
  positions (is_topic k) (nodes (run_topic_row g q))
  = match positions (is_topic k) (nodes g) with
    | [] => if bool_decide (tq_key q = k) then [length (nodes g)] else []
    | ids => ids
    end.
Proof.
  rewrite run_topic_row_eq. cbn [nodes]. unfold fresh_if_absent.
  destruct (positions (is_topic (tq_key q)) (nodes g)) as [|i ids] eqn:E.
  - rewrite update_where_absent, positions_snoc by done. simpl.
    destruct (positions (is_topic k) (nodes g)) as [|j js] eqn:Ek.
    + by case_bool_decide.
    + rewrite bool_decide_eq_false_2; [by rewrite app_nil_r|].
      intros Heq. rewrite Heq in E. congruence.
  - rewrite app_nil_r, positions_update_where by apply is_topic_with_keywords.
    destruct (positions (is_topic k) (nodes g)) as [|j js] eqn:Ek; [|done].
    rewrite bool_decide_eq_false_2; [done|].
    intros Heq. rewrite Heq in E. congruence.
Qed.

Lemma topic_row_keeps_present g q k :
  positions (is_topic k) (nodes g) <> [] ->
  positions (is_topic k) (nodes (run_topic_row g q))
  = positions (is_topic k) (nodes g).
Proof.
  intros Hk. rewrite topic_row_positions. by destruct (positions _ (nodes g)).
Qed.

Lemma topic_rows_keep_present g tqs k :
  positions (is_topic k) (nodes g) <> [] ->
  positions (is_topic k) (nodes (foldl run_topic_row g tqs))
  = positions (is_topic k) (nodes g).
Proof.
  revert g. induction tqs as [|q tqs IH]; intros g Hk; simpl; [done|].
  rewrite IH; rewrite topic_row_keeps_present; done.
Qed.

Lemma topic_rows_present g tqs : topics_present tqs (foldl run_topic_row g tqs).
Proof.
  revert g. induction tqs as [|q tqs IH]; intros g q' Hin; simpl.
  { by apply elem_of_nil in Hin. }
  apply elem_of_cons in Hin as [->|Hin]; [|by apply IH].
  rewrite topic_rows_keep_present; apply topic_row_present.
Qed.

(** After the batch a key of the batch has one Topic node when it had none
    before, and the nodes that it had before otherwise. *)
Lemma topic_rows_one_node g tqs q :
  q ∈ tqs ->
  length (positions (is_topic (tq_key q)) (nodes (foldl run_topic_row g tqs)))
  = (1 `max` length (positions (is_topic (tq_key q)) (nodes g)))%nat.
Proof.
  revert g. induction tqs as [|q' tqs IH]; intros g Hin.
  { by apply elem_of_nil in Hin. }
  simpl. destruct (positions (is_topic (tq_key q)) (nodes g)) as [|i ids] eqn:E.
  - destruct (decide (tq_key q' = tq_key q)) as [Heq|Hne].
    + rewrite topic_rows_keep_present; rewrite topic_row_positions, E;
        by rewrite bool_decide_eq_true_2.
    + apply elem_of_cons in Hin as [->|Hin]; [done|].
      rewrite (IH (run_topic_row g q') Hin).
      rewrite topic_row_positions, E. by rewrite bool_decide_eq_false_2.
  - assert (positions (is_topic (tq_key q)) (nodes g) <> []) as Hpres
      by (by rewrite E).
    assert (positions (is_topic (tq_key q)) (nodes (run_topic_row g q')) = i :: ids)
      as Hrow by (by rewrite topic_row_keeps_present).
    rewrite topic_rows_keep_present by (by rewrite Hrow).
    rewrite Hrow. simpl. lia.
Qed.

Lemma topic_row_keeps_other g r (q : node -> bool) :
  (forall v n, q (with_keywords v n) = q n) -> (forall k o, q (Topic k o) = false) ->
  positions q (nodes (run_topic_row g r)) = positions q (nodes g).
Proof.
  intros Hq Hfresh. rewrite run_topic_row_eq. cbn [nodes]. unfold fresh_if_absent.
  destruct (positions (is_topic (tq_key r)) (nodes g)).
  - rewrite positions_snoc, Hfresh, app_nil_r. by apply positions_update_where.
  - rewrite app_nil_r. by apply positions_update_where.
Qed.

Lemma last_keywords_snoc k tqs q o :
  last_keywords k (tqs ++ [q]) o
  = if bool_decide (k = tq_key q) then Some (tq_keywords q)
    else last_keywords k tqs o.
Proof. unfold last_keywords. by rewrite foldl_snoc. Qed.

Lemma last_keywords_absent k tqs o :
  (forall q, q ∈ tqs -> tq_key q <> k) -> last_keywords k tqs o = o.
Proof.
  revert o. induction tqs as [|q tqs IH]; intros o Hno; [done|].
  unfold last_keywords in *. simpl.
  rewrite bool_decide_eq_false_2.
  - apply IH. intros q' Hin. apply Hno. by right.
  - intros ->. by apply (Hno q); [left|].
Qed.

Lemma last_keywords_last front q back o :
  (forall q', q' ∈ back -> tq_key q' <> tq_key q) ->
  last_keywords (tq_key q) (front ++ q :: back) o = Some (tq_keywords q).
Proof.
  intros Hno. unfold last_keywords. rewrite foldl_app. simpl.
  rewrite bool_decide_eq_true_2 by done. by apply last_keywords_absent.
Qed.

Lemma topic_row_settled g tqs q :
  topics_settled tqs g -> topics_settled (tqs ++ [q]) (run_topic_row g q).
Proof.
  intros Hset i k o. rewrite run_topic_row_eq. cbn [nodes].
  rewrite last_keywords_snoc, lookup_app_Some, lookup_update_where.
  intros [Hold|[_ Hnew]].
  - destruct (nodes g !! i) as [n|] eqn:Hn; [|done]. simpl in Hold.
    destruct n as [k' o'| |]; simpl in Hold; try (case_bool_decide; done).
    case_bool_decide as Hk; simplify_eq.
    + by rewrite bool_decide_eq_true_2.
    + rewrite bool_decide_eq_false_2 by done. by eapply Hset.
  - unfold fresh_if_absent in Hnew. destruct (positions _ (nodes g)).
    + apply list_lookup_singleton_Some in Hnew as [_ [= <- <-]].
      by rewrite bool_decide_eq_true_2.
    + by rewrite lookup_nil in Hnew.
Qed.

Lemma topic_rows_settled g tqs : topics_settled tqs (foldl run_topic_row g tqs).
Proof.
  induction tqs as [|q tqs IH] using rev_ind.
  - intros i k o _. done.
  - rewrite foldl_snoc. by apply topic_row_settled.
Qed.

Lemma topic_rows_on_node_eq tqs n :
  topic_rows_on_node tqs n
  = match n with Topic k o => Topic k (last_keywords k tqs o) | _ => n end.
Proof.
  revert n. induction tqs as [|q tqs IH]; intros n; [by destruct n|].
  unfold topic_rows_on_node, last_keywords in *. simpl. rewrite IH.
  destruct n as [k o| |]; simpl; [|done..]. by case_bool_decide.
Qed.

Lemma topic_rows_on_present g tqs :
  topics_present tqs g ->
  foldl run_topic_row g tqs = Graph (topic_rows_on_node tqs <$> nodes g) (rels g).
Proof.
  revert g. induction tqs as [|q tqs IH]; intros g Hpres.
  { destruct g as [ns rs]. simpl. f_equal. apply list_eq. intros i.
    rewrite list_lookup_fmap. by destruct (ns !! i). }
  simpl. rewrite run_topic_row_eq.
  assert (positions (is_topic (tq_key q)) (nodes g) <> []) as Hq
    by (apply Hpres; left).
  unfold fresh_if_absent at 1.
  destruct (positions (is_topic (tq_key q)) (nodes g)) as [|i ids] eqn:E; [done|].
  rewrite app_nil_r, IH; cbn [nodes rels].
  - f_equal. unfold update_where. rewrite <- list_fmap_compose. done.
  - intros q' Hin. cbn [nodes].
    rewrite positions_update_where by apply is_topic_with_keywords.
    apply Hpres. by right.
Qed.

(** On a store that already holds what the topic batch writes, the topic
    statement changes nothing. *)
Lemma topic_rows_fixpoint g tqs :
  topics_present tqs g -> topics_settled tqs g -> foldl run_topic_row g tqs = g.
Proof.
  intros Hpres Hset. rewrite topic_rows_on_present by done.
  destruct g as [ns rs]. simpl in *. f_equal.
  apply list_eq. intros i. rewrite list_lookup_fmap.
  destruct (ns !! i) as [n|] eqn:Hn; [|done]. simpl. f_equal.
  rewrite topic_rows_on_node_eq. destruct n as [k o| |]; [|done..].
  by rewrite (Hset _ _ _ Hn).
Qed.

(** ** The document statement *)

Lemma nodes_run_doc_row g doc :
  nodes (run_doc_row g doc)
  = merged_nodes (is_document (dq_content doc)) (Document (dq_content doc)) (nodes g).
Proof. by rewrite run_doc_row_eq. Qed.

Lemma doc_row_keeps_topics g doc k :
  positions (is_topic k) (nodes (run_doc_row g doc)) = positions (is_topic k) (nodes g).
Proof. rewrite nodes_run_doc_row. by apply positions_merged_nodes. Qed.

Lemma doc_row_keeps_documents g doc c :
  positions (is_document c) (nodes g) <> [] ->
  positions (is_document c) (nodes (run_doc_row g doc))
  = positions (is_document c) (nodes g).
Proof.
  intros Hc. rewrite nodes_run_doc_row. apply positions_merged_nodes.
  intros Hnil. simpl. apply bool_decide_eq_false_2. intros Heq.
  by rewrite Heq in Hnil.
Qed.

Lemma doc_row_no_topic g doc :
  match_nodes (is_topic (dq_topic_key doc)) g = [] ->
  run_doc_row g doc
  = Graph (merged_nodes (is_document (dq_content doc))
             (Document (dq_content doc)) (nodes g)) (rels g).
Proof.
  unfold match_nodes. intros Hno. rewrite run_doc_row_eq. cbv zeta.
  rewrite (positions_merged_nodes (is_topic _)) by done.
  rewrite Hno. f_equal.
  generalize (positions (is_document (dq_content doc))
                (merged_nodes (is_document (dq_content doc))
                   (Document (dq_content doc)) (nodes g))).
  intros ds. by induction ds.
Qed.

Lemma doc_rows_keep_topics g docs k :
  positions (is_topic k) (nodes (foldl run_doc_row g docs))
  = positions (is_topic k) (nodes g).
Proof.
  revert g. induction docs as [|doc docs IH]; intros g; simpl; [done|].
  by rewrite IH, doc_row_keeps_topics.
Qed.

Lemma doc_rows_keep_documents g docs c :
  positions (is_document c) (nodes g) <> [] ->
  positions (is_document c) (nodes (foldl run_doc_row g docs))
  = positions (is_document c) (nodes g).
Proof.
  revert g. induction docs as [|doc docs IH]; intros g Hc; simpl; [done|].
  rewrite IH; rewrite doc_row_keeps_documents; done.
Qed.

Lemma doc_rows_document_present g docs doc :
  doc ∈ docs ->
  positions (is_document (dq_content doc)) (nodes (foldl run_doc_row g docs)) <> [].
Proof.
  revert g. induction docs as [|doc' docs IH]; intros g Hin; simpl.
  { by apply elem_of_nil in Hin. }
  apply elem_of_cons in Hin as [<-|Hin]; [|by apply IH].
  assert (positions (is_document (dq_content doc)) (nodes (run_doc_row g doc)) <> [])
    as Hnow.
  { rewrite nodes_run_doc_row.
    apply positions_merged_nodes_present, is_document_fresh. }
  by rewrite doc_rows_keep_documents.
Qed.

Lemma doc_row_linked g q :
  linked (is_document (dq_content q)) (is_topic (dq_topic_key q)) is_belongs_to
         (run_doc_row g q).
Proof.
  rewrite run_doc_row_eq. cbv zeta. split; cbn [nodes rels].
  - apply positions_merged_nodes_present, is_document_fresh.
  - intros d t Hd Ht.
    apply (foldl_merge_set_rel_present is_belongs_to BELONGS_TO id
             is_belongs_to_fresh (fun _ _ _ => eq_refl) _ _ (d, t)).
    by apply elem_of_list_prod.
Qed.

Lemma doc_row_keeps_linked g q c k :
  linked (is_document c) (is_topic k) is_belongs_to g ->
  linked (is_document c) (is_topic k) is_belongs_to (run_doc_row g q).
Proof.
  intros Hl. eapply linked_preserved; [exact Hl|..].
  - apply doc_row_keeps_documents, Hl.
  - apply doc_row_keeps_topics.
  - intros a b Hab. rewrite run_doc_row_eq. cbv zeta. cbn [rels].
    by apply (foldl_merge_set_rel_keeps is_belongs_to BELONGS_TO id).
Qed.

Lemma doc_rows_keep_linked g dqs c k :
  linked (is_document c) (is_topic k) is_belongs_to g ->
  linked (is_document c) (is_topic k) is_belongs_to (foldl run_doc_row g dqs).
Proof.
  revert g. induction dqs as [|q dqs IH]; intros g Hl; simpl; [done|].
  by apply IH, doc_row_keeps_linked.
Qed.

Lemma doc_rows_linked g dqs : documents_linked dqs (foldl run_doc_row g dqs).
Proof.
  revert g. induction dqs as [|q dqs IH]; intros g q' Hin; simpl.
  { by apply elem_of_nil in Hin. }
  apply elem_of_cons in Hin as [->|Hin]; [|by apply IH].
  apply doc_rows_keep_linked, doc_row_linked.
Qed.

Lemma doc_row_fixpoint g q :
  linked (is_document (dq_content q)) (is_topic (dq_topic_key q)) is_belongs_to g ->
  run_doc_row g q = g.
Proof.
  intros [Hsrc Hrel]. rewrite run_doc_row_eq. cbv zeta.
  rewrite merged_nodes_present by done.
  destruct (foldl_merge_set_rel is_belongs_to BELONGS_TO id
              (fun _ _ _ => eq_refl) (fun _ => eq_refl)
              (list_prod (positions (is_document (dq_content q)) (nodes g))
                         (positions (is_topic (dq_topic_key q)) (nodes g)))
              (rels g)) as (news & -> & _ & Hsat).
  rewrite Hsat, app_nil_r, update_where_id; [by destruct g|].
  intros [a b] [Ha Hb]%elem_of_list_prod. by apply Hrel.
Qed.

(** On a store that already holds what the document batch writes, the
    document statement changes nothing. *)
Lemma doc_rows_fixpoint g dqs :
  documents_linked dqs g -> foldl run_doc_row g dqs = g.
Proof.
  induction dqs as [|q dqs IH]; intros Hl; simpl; [done|].
  rewrite doc_row_fixpoint by (apply Hl; left).
  apply IH. intros q' Hin. apply Hl. by right.
Qed.

Lemma doc_row_keeps_topics_settled g q tqs :
  topics_settled tqs g -> topics_settled tqs (run_doc_row g q).
Proof.
  intros Hset i k o. rewrite nodes_run_doc_row.
  intros [Hold|(_ & _ & [=])]%lookup_merged_nodes. by eapply Hset.
Qed.

Lemma doc_rows_keep_topics_settled g dqs tqs :
  topics_settled tqs g -> topics_settled tqs (foldl run_doc_row g dqs).
Proof.
  revert g. induction dqs as [|q dqs IH]; intros g Hset; simpl; [done|].
  by apply IH, doc_row_keeps_topics_settled.
Qed.

Lemma doc_rows_keep_topics_present g dqs tqs :
  topics_present tqs g -> topics_present tqs (foldl run_doc_row g dqs).
Proof. intros Hp q Hin. rewrite doc_rows_keep_topics. by apply Hp. Qed.

(** ** The keyword statement *)

Lemma elem_of_positions_keyword w ns x :
  x ∈ positions (is_keyword w) ns <-> ns !! x = Some (Keyword w).
Proof.
  rewrite elem_of_positions. split.
  - intros ([| |w'] & Hx & Hp); simpl in Hp; try done.
    by apply bool_decide_eq_true_1 in Hp as ->.
  - intros Hx. eexists. split; [done|apply is_keyword_fresh].
Qed.

Lemma elem_of_positions_topic k ns t :
  t ∈ positions (is_topic k) ns <-> exists o, ns !! t = Some (Topic k o).
Proof.
  rewrite elem_of_positions. split.
  - intros ([k' o| |] & Hx & Hp); simpl in Hp; try done.
    apply bool_decide_eq_true_1 in Hp as ->. eauto.
  - intros [o Hx]. eexists. split; [done|apply is_topic_fresh].
Qed.

Lemma row_binds_represents ns (r : keyword_row) x t o :
  row_binds ns r (REPRESENTS x t o) = true
  <-> ns !! x = Some (Keyword r.1.1) /\ exists ok, ns !! t = Some (Topic r.1.2 ok).
Proof.
  unfold row_binds. rewrite in_pairs_true. split.
  - intros ([a b] & [Ha Hb]%elem_of_list_prod & Hp). simpl in Hp.
    apply andb_true_iff in Hp as [->%bool_decide_eq_true_1 ->%bool_decide_eq_true_1].
    by rewrite <- elem_of_positions_keyword, <- elem_of_positions_topic.
  - intros [Hx Ht]. exists (x, t). split; [|apply is_represents_fresh].
    apply elem_of_list_prod.
    by rewrite elem_of_positions_keyword, elem_of_positions_topic.
Qed.

Lemma row_binds_belongs_to ns r d t : row_binds ns r (BELONGS_TO d t) = false.
Proof.
  unfold row_binds, in_pairs. apply not_true_is_false.
  rewrite existsb_exists. by intros ([a b] & _ & ?).
Qed.

Lemma nodes_run_keyword g w k s :
  nodes (run_keyword g w k s)
  = merged_nodes (is_keyword w) (Keyword w) (nodes g).
Proof. by rewrite run_keyword_eq. Qed.

Lemma keyword_row_keeps_topics g r k :
  positions (is_topic k) (nodes (run_keyword_row g r))
  = positions (is_topic k) (nodes g).
Proof.
  unfold run_keyword_row. rewrite nodes_run_keyword.
  by apply positions_merged_nodes.
Qed.

Lemma keyword_row_keeps_documents g r c :
  positions (is_document c) (nodes (run_keyword_row g r))
  = positions (is_document c) (nodes g).
Proof.
  unfold run_keyword_row. rewrite nodes_run_keyword.
  by apply positions_merged_nodes.
Qed.

Lemma keyword_row_keeps_keywords g r w :
  positions (is_keyword w) (nodes g) <> [] ->
  positions (is_keyword w) (nodes (run_keyword_row g r))
  = positions (is_keyword w) (nodes g).
Proof.
  intros Hw. unfold run_keyword_row. rewrite nodes_run_keyword.
  apply positions_merged_nodes.
  intros Hnil. simpl. apply bool_decide_eq_false_2. intros Heq.
  by rewrite Heq in Hnil.
Qed.

(** The relationships after a keyword statement: those of before, with the
    strength set where the statement binds, and the fresh ones. *)
Lemma rels_run_keyword_row g r :
  exists news,
    rels (run_keyword_row g r)
    = update_where (row_binds (nodes (run_keyword_row g r)) r)
                   (with_strength r.2) (rels g) ++ news
    /\ Forall (fun e => exists a b,
                 e = REPRESENTS a b (Some r.2)
                 /\ row_binds (nodes (run_keyword_row g r)) r e = true) news
    /\ (linked (is_keyword r.1.1) (is_topic r.1.2) is_represents g -> news = []).
Proof.
  unfold run_keyword_row. rewrite nodes_run_keyword, run_keyword_eq.
  cbv zeta. cbn [rels].
  set (ns := merged_nodes (is_keyword r.1.1) (Keyword r.1.1) (nodes g)).
  destruct (foldl_merge_set_rel is_represents (fun a b => REPRESENTS a b None)
              (with_strength r.2)
              (fun a b e => is_represents_with_strength a b r.2 e)
              (with_strength_idem r.2)
              (list_prod (positions (is_keyword r.1.1) ns)
                         (positions (is_topic r.1.2) ns))
              (rels g)) as (news & Heq & Hnews & Hsat).
  exists news. split; [exact Heq|]. split.
  - eapply Forall_impl; [exact Hnews|]. intros e ([a b] & Hin & ->). simpl.
    exists a, b. split; [done|].
    unfold row_binds. apply in_pairs_true. exists (a, b).
    split; [done|apply is_represents_fresh].
  - intros [Hsrc Hrel]. apply Hsat. intros [a b] [Ha Hb]%elem_of_list_prod.
    subst ns. rewrite merged_nodes_present in Ha, Hb by done. by apply Hrel.
Qed.

Lemma keyword_row_on_linked g r :
  linked (is_keyword r.1.1) (is_topic r.1.2) is_represents g ->
  run_keyword_row g r
  = Graph (nodes g)
          (update_where (row_binds (nodes g) r) (with_strength r.2) (rels g)).
Proof.
  intros Hl. destruct (rels_run_keyword_row g r) as (news & Heq & _ & Hsat).
  assert (nodes (run_keyword_row g r) = nodes g) as Hns.
  { unfold run_keyword_row. rewrite nodes_run_keyword.
    apply merged_nodes_present, Hl. }
  rewrite Hsat, app_nil_r, Hns in Heq by done.
  destruct (run_keyword_row g r) as [ns rs]. simpl in *. by subst.
Qed.

Lemma keyword_row_keeps_rel g r (q : rel -> bool) :
  (forall s e, q (with_strength s e) = q e) ->
  positions q (rels g) <> [] -> positions q (rels (run_keyword_row g r)) <> [].
Proof.
  intros Hq Hpres. unfold run_keyword_row. rewrite run_keyword_eq.
  cbv zeta. cbn [rels]. by apply foldl_merge_set_rel_keeps.
Qed.

Lemma keyword_row_linked g r :
  linked (is_keyword r.1.1) (is_topic r.1.2) is_represents (run_keyword_row g r).
Proof.
  unfold run_keyword_row. rewrite run_keyword_eq. cbv zeta.
  split; cbn [nodes rels].
  - apply positions_merged_nodes_present, is_keyword_fresh.
  - intros x t Hx Ht.
    apply (foldl_merge_set_rel_present is_represents
             (fun a b => REPRESENTS a b None) (with_strength r.2)
             (fun a b => is_represents_fresh a b (Some r.2))
             (fun a b e => is_represents_with_strength a b r.2 e) _ _ (x, t)).
    by apply elem_of_list_prod.
Qed.

Lemma keyword_row_keeps_keywords_linked g r w k :
  linked (is_keyword w) (is_topic k) is_represents g ->
  linked (is_keyword w) (is_topic k) is_represents (run_keyword_row g r).
Proof.
  intros Hl. eapply linked_preserved; [exact Hl|..].
  - apply keyword_row_keeps_keywords, Hl.
  - apply keyword_row_keeps_topics.
  - intros a b. apply keyword_row_keeps_rel.
    intros. apply is_represents_with_strength.
Qed.

Lemma keyword_row_keeps_documents_linked g r c k :
  linked (is_document c) (is_topic k) is_belongs_to g ->
  linked (is_document c) (is_topic k) is_belongs_to (run_keyword_row g r).
Proof.
  intros Hl. eapply linked_preserved; [exact Hl|..].
  - apply keyword_row_keeps_documents.
  - apply keyword_row_keeps_topics.
  - intros a b. apply keyword_row_keeps_rel.
    intros. apply is_belongs_to_with_strength.
Qed.

Lemma keyword_rows_keep_keywords_linked g rows w k :
  linked (is_keyword w) (is_topic k) is_represents g ->
  linked (is_keyword w) (is_topic k) is_represents (foldl run_keyword_row g rows).
Proof.
  revert g. induction rows as [|r rows IH]; intros g Hl; simpl; [done|].
  by apply IH, keyword_row_keeps_keywords_linked.
Qed.

Lemma keyword_rows_linked g rows :
  keywords_linked rows (foldl run_keyword_row g rows).
Proof.
  revert g. induction rows as [|r rows IH]; intros g r' Hin; simpl.
  { by apply elem_of_nil in Hin. }
  apply elem_of_cons in Hin as [->|Hin]; [|by apply IH].
  apply keyword_rows_keep_keywords_linked, keyword_row_linked.
Qed.

Lemma keyword_rows_keep_documents_linked g rows dqs :
  documents_linked dqs g -> documents_linked dqs (foldl run_keyword_row g rows).
Proof.
  revert g. induction rows as [|r rows IH]; intros g Hl; simpl; [done|].
  apply IH. intros q Hin. by apply keyword_row_keeps_documents_linked, Hl.
Qed.

Lemma keyword_rows_keep_topics_present g rows tqs :
  topics_present tqs g -> topics_present tqs (foldl run_keyword_row g rows).
Proof.
  revert g. induction rows as [|r rows IH]; intros g Hp; simpl; [done|].
  apply IH. intros q Hin. rewrite keyword_row_keeps_topics. by apply Hp.
Qed.

Lemma keyword_rows_keep_topics_settled g rows tqs :
  topics_settled tqs g -> topics_settled tqs (foldl run_keyword_row g rows).
Proof.
  revert g. induction rows as [|r rows IH]; intros g Hset; simpl; [done|].
  apply IH. intros i k o. unfold run_keyword_row. rewrite nodes_run_keyword.
  intros [Hold|(_ & _ & [=])]%lookup_merged_nodes. by eapply Hset.
Qed.

Lemma last_strength_snoc w k rows (r : keyword_row) o :
  last_strength w k (rows ++ [r]) o
  = if bool_decide (w = r.1.1) && bool_decide (k = r.1.2)
    then Some r.2 else last_strength w k rows o.
Proof. unfold last_strength. by rewrite foldl_snoc. Qed.

Lemma last_strength_absent w k (rows : list keyword_row) o :
  (forall r, r ∈ rows -> r.1.1 <> w) -> last_strength w k rows o = o.
Proof.
  revert o. induction rows as [|r rows IH]; intros o Hno; [done|].
  unfold last_strength in *. simpl.
  rewrite (bool_decide_eq_false_2 (w = r.1.1)).
  - apply IH. intros r' Hin. apply Hno. by right.
  - intros ->. by apply (Hno r); [left|].
Qed.

Lemma row_binds_eq ns (r : keyword_row) x t o w k ok :
  ns !! x = Some (Keyword w) -> ns !! t = Some (Topic k ok) ->
  row_binds ns r (REPRESENTS x t o)
  = bool_decide (w = r.1.1) && bool_decide (k = r.1.2).
Proof.
  intros Hx Ht. apply eq_true_iff_eq.
  rewrite row_binds_represents, andb_true_iff, !bool_decide_eq_true.
  rewrite Hx, Ht. split.
  - intros [[= ->] [ok' [= -> _]]]. done.
  - intros [-> ->]. eauto.
Qed.

(** A keyword statement after which the strengths are settled for the
    statements so far. *)
Lemma keyword_row_settled g rows r :
  keywords_linked rows g -> strengths_settled rows g ->
  strengths_settled (rows ++ [r]) (run_keyword_row g r).
Proof.
  intros Hl Hset j x t o w k ok Hj Hx Ht.
  destruct (rels_run_keyword_row g r) as (news & Heq & Hnews & _).
  rewrite Heq in Hj. rewrite last_strength_snoc.
  rewrite <- (row_binds_eq _ r x t o w k ok Hx Ht).
  apply lookup_app_Some in Hj as [Hold|[_ Hnew]].
  - rewrite lookup_update_where in Hold.
    destruct (rels g !! j) as [e0|] eqn:He0; [|done].
    simpl in Hold. injection Hold as Hold.
    destruct (row_binds (nodes (run_keyword_row g r)) r e0) eqn:Hb.
    + destruct e0 as [|x0 t0 o0]; simpl in Hold; [done|].
      injection Hold as -> -> <-.
      rewrite (row_binds_eq _ r x t _ w k ok Hx Ht).
      by rewrite <- (row_binds_eq _ r x t o0 w k ok Hx Ht), Hb.
    + subst e0. rewrite Hb.
      unfold run_keyword_row in Hx, Ht. rewrite nodes_run_keyword in Hx, Ht.
      apply lookup_merged_nodes in Ht as [Ht|(_ & _ & [=])].
      apply lookup_merged_nodes in Hx as [Hx|(Hnil & _ & [= ->])].
      * by eapply Hset.
      * apply last_strength_absent. intros r' Hin Hw.
        destruct (Hl r' Hin) as [Hpres _]. by rewrite Hw in Hpres.
  - rewrite Forall_lookup in Hnews.
    destruct (Hnews _ _ Hnew) as (a & b & [= -> -> ->] & Hb).
    by rewrite Hb.
Qed.

Lemma keyword_rows_settled g rows :
  strengths_settled rows (foldl run_keyword_row g rows).
Proof.
  induction rows as [|r rows IH] using rev_ind.
  - intros j x t o w k ok _ _ _. done.
  - rewrite foldl_snoc. apply keyword_row_settled; [|done].
    apply keyword_rows_linked.
Qed.

Lemma keyword_rows_on_linked g rows :
  keywords_linked rows g ->
  foldl run_keyword_row g rows
  = Graph (nodes g) (keyword_rows_on_rel (nodes g) rows <$> rels g).
Proof.
  revert g. induction rows as [|r rows IH]; intros g Hl.
  { destruct g as [ns rs]. simpl. f_equal. apply list_eq. intros i.
    rewrite list_lookup_fmap. by destruct (rs !! i). }
  simpl. rewrite keyword_row_on_linked by (apply Hl; left).
  rewrite IH; cbn [nodes rels].
  - f_equal. unfold update_where. by rewrite <- list_fmap_compose.
  - intros r' Hin. eapply linked_preserved; [apply (Hl r'); by right|done..|].
    intros a b. cbn [rels]. rewrite positions_update_where; [done|].
    intros e. apply is_represents_with_strength.
Qed.

Lemma keyword_rows_on_rel_unbound ns rows e :
  (forall r, row_binds ns r e = false) -> keyword_rows_on_rel ns rows e = e.
Proof.
  intros Hno. induction rows as [|r rows IH]; [done|].
  unfold keyword_rows_on_rel in *. simpl. by rewrite Hno.
Qed.

Lemma keyword_rows_on_rel_bound ns rows x t o w k ok :
  ns !! x = Some (Keyword w) -> ns !! t = Some (Topic k ok) ->
  keyword_rows_on_rel ns rows (REPRESENTS x t o)
  = REPRESENTS x t (last_strength w k rows o).
Proof.
  intros Hx Ht. revert o. induction rows as [|r rows IH]; intros o; [done|].
  unfold keyword_rows_on_rel, last_strength in *. simpl.
  rewrite (row_binds_eq ns r x t o w k ok Hx Ht).
  destruct (bool_decide (w = r.1.1) && bool_decide (k = r.1.2)); apply IH.
Qed.

(** On a store that already holds what the keyword statements write, these
    statements change nothing. *)
Lemma keyword_rows_fixpoint g rows :
  keywords_linked rows g -> strengths_settled rows g ->
  foldl run_keyword_row g rows = g.
Proof.
  intros Hl Hset. rewrite keyword_rows_on_linked by done.
  destruct g as [ns rs]. simpl in *. f_equal.
  apply list_eq. intros j. rewrite list_lookup_fmap.
  destruct (rs !! j) as [e|] eqn:He; [|done]. simpl. f_equal.
  destruct e as [d t|x t o].
  { apply keyword_rows_on_rel_unbound. intros r. apply row_binds_belongs_to. }
  destruct (ns !! x) as [[| |w]|] eqn:Hx;
    try (apply keyword_rows_on_rel_unbound; intros r; apply not_true_is_false;
         rewrite row_binds_represents, Hx; by intros [? _]).
  destruct (ns !! t) as [[k ok| |]|] eqn:Ht;
    try (apply keyword_rows_on_rel_unbound; intros r; apply not_true_is_false;
         rewrite row_binds_represents, Ht; by intros [_ [? ?]]).
  rewrite (keyword_rows_on_rel_bound ns rows x t o w k ok Hx Ht).
  f_equal. by eapply Hset.
Qed.

Lemma keyword_statement_overwrites g w k s j x t o ok :
  rels (exec (MergeKeyword w k s) g) !! j = Some (REPRESENTS x t o) ->
  nodes (exec (MergeKeyword w k s) g) !! x = Some (Keyword w) ->
  nodes (exec (MergeKeyword w k s) g) !! t = Some (Topic k ok) ->
  o = Some s.
Proof.
  intros Hj Hx Ht.
  assert (strengths_settled ([] ++ [(w, k, s)]) (run_keyword_row g (w, k, s)))
    as Hset.
  { apply keyword_row_settled.
    - by intros r Hin%elem_of_nil.
    - by intros ? ? ? ? ? ? ? _ _ _. }
  specialize (Hset j x t o w k ok Hj Hx Ht).
  unfold last_strength in Hset. simpl in Hset.
  by rewrite !bool_decide_eq_true_2 in Hset.
Qed.

(** ** No duplicates *)

Lemma is_belongs_to_inj a b d t :
  is_belongs_to d t (BELONGS_TO a b) = true -> d = a /\ t = b.
Proof.
  simpl. intros [?%bool_decide_eq_true_1 ?%bool_decide_eq_true_1]%andb_true_iff.
  done.
Qed.

Lemma is_represents_inj a b o k t :
  is_represents k t (REPRESENTS a b o) = true -> k = a /\ t = b.
Proof.
  simpl. intros [?%bool_decide_eq_true_1 ?%bool_decide_eq_true_1]%andb_true_iff.
  done.
Qed.

Lemma topic_row_no_duplicates g r :
  no_duplicates g -> no_duplicates (run_topic_row g r).
Proof.
  intros [Ht Hd Hk Hb Hr]. split.
  - intros k. rewrite topic_row_positions. specialize (Ht k).
    destruct (positions (is_topic k) (nodes g)); [|done].
    case_bool_decide; simpl; lia.
  - intros c. rewrite topic_row_keeps_other; [done|..]; try done.
    intros. apply is_document_with_keywords.
  - intros w. rewrite topic_row_keeps_other; [done|..]; try done.
    intros. apply is_keyword_with_keywords.
  - intros d t. by rewrite rels_run_topic_row.
  - intros k t. by rewrite rels_run_topic_row.
Qed.

Lemma doc_row_no_duplicates g q :
  no_duplicates g -> no_duplicates (run_doc_row g q).
Proof.
  intros [Ht Hd Hk Hb Hr]. rewrite run_doc_row_eq. cbv zeta.
  split; cbn [nodes rels].
  - intros k. by apply merged_nodes_unique.
  - intros c. apply merged_nodes_unique; [|done]. simpl.
    by intros ->%bool_decide_eq_true_1.
  - intros w. by apply merged_nodes_unique.
  - apply (foldl_merge_set_rel_unique is_belongs_to BELONGS_TO id);
      [done| |done].
    intros a b d t. apply is_belongs_to_inj.
  - intros k t. by rewrite foldl_merge_set_rel_other.
Qed.

Lemma keyword_row_no_duplicates g r :
  no_duplicates g -> no_duplicates (run_keyword_row g r).
Proof.
  intros [Ht Hd Hk Hb Hr]. unfold run_keyword_row. rewrite run_keyword_eq.
  cbv zeta. split; cbn [nodes rels].
  - intros k. by apply merged_nodes_unique.
  - intros c. by apply merged_nodes_unique.
  - intros w. apply merged_nodes_unique; [|done]. simpl.
    by intros ->%bool_decide_eq_true_1.
  - intros d t. rewrite foldl_merge_set_rel_other; [done| |done].
    intros. apply is_belongs_to_with_strength.
  - apply (foldl_merge_set_rel_unique is_represents
             (fun a b => REPRESENTS a b None) (with_strength r.2)); [| |done].
    + intros. apply is_represents_with_strength.
    + intros a b k t. apply is_represents_inj.
Qed.

Lemma foldl_no_duplicates {A} (f : graph -> A -> graph) g l :
  (forall g x, no_duplicates g -> no_duplicates (f g x)) ->
  no_duplicates g -> no_duplicates (foldl f g l).
Proof.
  intros Hf. revert g. induction l as [|x l IH]; intros g Hg; simpl; [done|].
  by apply IH, Hf.
Qed.

(** Every statement keeps the store free of duplicates. *)
Lemma exec_no_duplicates q g : no_duplicates g -> no_duplicates (exec q g).
Proof.
  destruct q as [tqs|dqs|w k s]; simpl.
  - apply foldl_no_duplicates, topic_row_no_duplicates.
  - apply foldl_no_duplicates, doc_row_no_duplicates.
  - apply (keyword_row_no_duplicates g (w, k, s)).
Qed.

Lemma empty_graph_no_duplicates : no_duplicates empty_graph.
Proof. split; intros; simpl; lia. Qed.

(** ** The run of [create_topic_graph] *)

Lemma log_foldl_run s qs : log (foldl run s qs) = log s ++ qs.
Proof.
  revert s. induction qs as [|q qs IH]; intros s; simpl.
  - by rewrite app_nil_r.
  - rewrite IH. simpl. by rewrite <- (assoc (++)).
Qed.

Lemma store_foldl_run s qs :
  store (foldl run s qs) = foldl (fun g q => exec q g) (store s) qs.
Proof. revert s. induction qs as [|q qs IH]; intros s; simpl; [done|]. by rewrite IH. Qed.

Lemma keyword_row_foldl s k (kws : keyword_list) :
  foldl (fun s '(keyword, strength) => run s (MergeKeyword keyword k strength)) s kws
  = foldl run s (map (fun '(keyword, strength) => MergeKeyword keyword k strength) kws).
Proof.
  revert s. induction kws as [|[w st] kws IH]; intros s; simpl; [done|]. apply IH.
Qed.

Lemma keyword_loop_eq (topic_model : model) s ids :
  Forall (fun id => is_Some (generate_topic_key (topic_model id))) ids ->
  keyword_loop topic_model s ids
  = Returned (foldl run s (keyword_batch topic_model ids)).
Proof.
  intros Hall. revert s. induction Hall as [|id ids [k Hk] Hall IH]; intros s.
  { done. }
  unfold keyword_batch. rewrite bind_cons, foldl_app. simpl.
  rewrite Hk, IH, keyword_row_foldl. done.
Qed.

Lemma topic_queries_resolved (topic_model : model) ids tqs :
  topic_queries topic_model ids = Some tqs ->
  Forall (fun id => is_Some (generate_topic_key (topic_model id))) ids.
Proof.
  intros Htq. apply mapM_Some in Htq.
  induction Htq as [|id q ids tqs Hq _ IH]; constructor; [|done].
  destruct (generate_topic_key (topic_model id)); [by eexists|done].
Qed.

Lemma elem_of_zip_py {A B} (xs : list A) (ys : list B) x y :
  (x, y) ∈ zip_py xs ys -> x ∈ xs /\ y ∈ ys.
Proof.
  revert ys. induction xs as [|x' xs IH]; intros [|y' ys]; simpl;
    try (by intros ?%elem_of_nil).
  rewrite !elem_of_cons. intros [[= -> ->]|Hin]; [by split; left|].
  destruct (IH _ Hin). split; by right.
Qed.

Lemma length_zip_py {A B} (xs : list A) (ys : list B) :
  length (zip_py xs ys) = (length xs `min` length ys)%nat.
Proof.
  revert ys. induction xs as [|x xs IH]; intros [|y ys]; simpl; [done..|].
  by rewrite IH.
Qed.

Lemma doc_queries_is_Some (topic_model : model) docs topics :
  Forall (fun id => is_Some (generate_topic_key (topic_model id))) topics ->
  is_Some (doc_queries topic_model docs topics).
Proof.
  intros Hall. apply mapM_is_Some, Forall_forall. intros [doc topic] Hin.
  apply elem_of_zip_py in Hin as [_ Hin].
  rewrite Forall_forall in Hall. destruct (Hall _ Hin) as [k Hk].
  simpl. rewrite Hk. by eexists.
Qed.

(** The run either raises before it has run any statement, or runs the
    topic statement, the document statement and the keyword statements, in
    this order, and returns. *)
Lemma create_topic_graph_cases `{SetIteration} s docs topics topic_model :
  (topic_queries topic_model (set_iter topics) = None
   /\ create_topic_graph s docs topics topic_model = Raised UnicodeEncodeError s)
  \/ (exists tqs dqs,
        topic_queries topic_model (set_iter topics) = Some tqs
        /\ doc_queries topic_model docs topics = Some dqs
        /\ create_topic_graph s docs topics topic_model
           = Returned (foldl run s (MergeTopics tqs :: MergeDocuments dqs
                                    :: keyword_batch topic_model (set_iter topics)))).
Proof.
  unfold create_topic_graph.
  destruct (topic_queries topic_model (set_iter topics)) as [tqs|] eqn:Htq;
    [right|by left].
  pose proof (topic_queries_resolved _ _ _ Htq) as Hres.
  destruct (doc_queries_is_Some topic_model docs topics) as [dqs Hdq].
  { rewrite Forall_forall in Hres. apply Forall_forall. intros id Hid.
    apply Hres. by apply set_iter_elem. }
  exists tqs, dqs. rewrite Hdq. split; [done|]. split; [done|].
  by rewrite keyword_loop_eq.
Qed.

Lemma topic_queries_elem (topic_model : model) ids tqs id :
  topic_queries topic_model ids = Some tqs -> id ∈ ids ->
  exists k, generate_topic_key (topic_model id) = Some k
            /\ TopicQuery k (join (py ", ") (map (fun '(word, proba) => word)
                                               (topic_model id))) ∈ tqs.
Proof.
  intros Htq Hid. apply mapM_Some in Htq.
  induction Htq as [|id' q ids tqs Hq _ IH]; [by apply elem_of_nil in Hid|].
  apply elem_of_cons in Hid as [->|Hid].
  - destruct (generate_topic_key (topic_model id')) as [k|]; [|done].
    injection Hq as <-. exists k. split; [done|left].
  - destruct (IH Hid) as (k & Hk & Hin). exists k. split; [done|by right].
Qed.

Lemma doc_queries_lookup (topic_model : model) docs topics dqs i dq :
  doc_queries topic_model docs topics = Some dqs -> dqs !! i = Some dq ->
  docs !! i = Some (dq_content dq)
  /\ exists id, topics !! i = Some id
                /\ generate_topic_key (topic_model id) = Some (dq_topic_key dq).
Proof.
  unfold doc_queries. intros Hdq%mapM_Some. revert topics dqs i Hdq.
  induction docs as [|doc docs IH]; intros [|id topics] dqs i Hdq Hi; simpl in Hdq;
    try (inversion Hdq; subst; by rewrite lookup_nil in Hi).
  inversion Hdq as [|? q ? dqs' Hq Hrest]; subst.
  destruct i as [|i]; simpl in *.
  - injection Hi as ->.
    destruct (generate_topic_key (topic_model id)) as [k|] eqn:Hk; [|done].
    injection Hq as <-. simpl. split; [done|]. exists id. done.
  - by apply (IH topics dqs').
Qed.

Lemma doc_queries_length (topic_model : model) docs topics dqs :
  doc_queries topic_model docs topics = Some dqs ->
  length dqs = (length docs `min` length topics)%nat.
Proof.
  intros Hdq%mapM_Some%Forall2_length. by rewrite <- Hdq, length_zip_py.
Qed.

Lemma keyword_batch_elem (topic_model : model) ids q :
  q ∈ keyword_batch topic_model ids ->
  exists id w k st,
    q = MergeKeyword w k st /\ id ∈ ids
    /\ generate_topic_key (topic_model id) = Some k
    /\ (w, st) ∈ topic_model id.
Proof.
  unfold keyword_batch. rewrite list_elem_of_bind.
  intros (id & Hq & Hid).
  destruct (generate_topic_key (topic_model id)) as [k|] eqn:Hk;
    [|by apply elem_of_nil in Hq].
  apply list_elem_of_In, in_map_iff in Hq as ([w st] & <- & Hin%list_elem_of_In).
  exists id, w, k, st. done.
Qed.

Lemma keyword_batch_rows (topic_model : model) ids :
  keyword_batch topic_model ids = keyword_statement <$> keyword_rows topic_model ids.
Proof.
  unfold keyword_batch, keyword_rows.
  induction ids as [|id ids IH]; [done|].
  rewrite !bind_cons, fmap_app, IH. f_equal.
  destruct (generate_topic_key (topic_model id)); [|done].
  rewrite <- list_fmap_compose. apply list_fmap_ext. by intros _ [w st] _.
Qed.

Lemma exec_keyword_rows g rows :
  foldl (fun g q => exec q g) g (keyword_statement <$> rows)
  = foldl run_keyword_row g rows.
Proof. revert g. induction rows as [|r rows IH]; intros g; simpl; [done|]. apply IH. Qed.

(** The store after the three phases. *)
Lemma store_after_run s tqs dqs (topic_model : model) ids :
  store (foldl run s (MergeTopics tqs :: MergeDocuments dqs
                      :: keyword_batch topic_model ids))
  = foldl run_keyword_row
      (foldl run_doc_row (foldl run_topic_row (store s) tqs) dqs)
      (keyword_rows topic_model ids).
Proof.
  rewrite store_foldl_run. simpl.
  by rewrite keyword_batch_rows, exec_keyword_rows.
Qed.

Lemma phases_fixpoint g tqs dqs rows :
  let g1 := foldl run_keyword_row
              (foldl run_doc_row (foldl run_topic_row g tqs) dqs) rows in
  foldl run_keyword_row (foldl run_doc_row (foldl run_topic_row g1 tqs) dqs) rows
  = g1.
Proof.
  intros g1.
  assert (topics_present tqs g1) as Htp.
  { apply keyword_rows_keep_topics_present, doc_rows_keep_topics_present,
      topic_rows_present. }
  assert (topics_settled tqs g1) as Hts.
  { apply keyword_rows_keep_topics_settled, doc_rows_keep_topics_settled,
      topic_rows_settled. }
  assert (documents_linked dqs g1) as Hdl.
  { apply keyword_rows_keep_documents_linked, doc_rows_linked. }
  rewrite topic_rows_fixpoint, doc_rows_fixpoint by done.
  apply keyword_rows_fixpoint; [apply keyword_rows_linked|apply keyword_rows_settled].
Qed.

Lemma create_topic_graph_no_duplicates `{SetIteration} s docs topics topic_model :
  no_duplicates (store s) ->
  no_duplicates (store (final (create_topic_graph s docs topics topic_model))).
Proof.
  intros Hs.
  destruct (create_topic_graph_cases s docs topics topic_model)
    as [[_ ->]|(tqs & dqs & _ & _ & ->)]; [done|].
  cbn [final]. rewrite store_foldl_run.
  apply foldl_no_duplicates; [|done]. intros g q. apply exec_no_duplicates.
Qed.

(** ** The order of the statements *)

Lemma topic_queries_None (topic_model : model) ids :
  topic_queries topic_model ids = None ->
  exists id, id ∈ ids /\ generate_topic_key (topic_model id) = None.
Proof.
  intros Hnone.
  destruct (decide (Forall (fun id => is_Some (generate_topic_key (topic_model id)))
                           ids)) as [Hall|Hex].
  - assert (is_Some (topic_queries topic_model ids)) as [tqs Htq].
    { apply mapM_is_Some. eapply Forall_impl; [exact Hall|].
      intros id [k Hk]. simpl. rewrite Hk. by eexists. }
    congruence.
  - apply not_Forall_Exists in Hex; [|apply _].
    apply Exists_exists in Hex as (id & Hid & Hk).
    exists id. split; [done|].
    simpl in Hk. destruct (generate_topic_key (topic_model id)); [|done].
    exfalso. apply Hk. by eexists.
Qed.

Lemma set_iter_one `{SetIteration} x l :
  x ∈ l -> (forall y, y ∈ l -> y = x) -> set_iter l = [x].
Proof.
  intros Hx Hall.
  pose proof (set_iter_NoDup l) as Hnd.
  assert (forall y, y ∈ set_iter l -> y = x) as Hall'
    by (intros y Hy; by apply Hall, set_iter_elem).
  apply (proj2 (set_iter_elem l x)) in Hx.
  destruct (set_iter l) as [|a [|b l']].
  - by apply elem_of_nil in Hx.
  - by rewrite (Hall' a) by apply list_elem_of_here.
  - exfalso. apply NoDup_cons in Hnd as [Hnd _]. apply Hnd.
    rewrite (Hall' a) by apply list_elem_of_here.
    rewrite <- (Hall' b) at 1
      by apply list_elem_of_further, list_elem_of_here.
    apply list_elem_of_here.
Qed.


(** C6: the statements of a run are in a fixed order.  A run whose
    assigned topic ids all have a key returns, and it has then run the topic
    statement with the batch of all topics, then the document statement,
    then the keyword statements, and nothing else, in this order: no
    statement is skipped and none precedes the topic statement.  The only
    other run is the one where the key of some assigned topic id cannot be
    resolved: it raises before the first statement.  Two documents of one
    topic with two keywords make four statements: topics, documents,
    keyword, keyword. *)
Theorem create_topic_graph_order `{SetIteration} :
  (forall s docs topics topic_model,
     ((exists id, id ∈ topics /\ generate_topic_key (topic_model id) = None)
      /\ topic_queries topic_model (set_iter topics) = None
      /\ create_topic_graph s docs topics topic_model
         = Raised UnicodeEncodeError s)
     \/ ((forall id, id ∈ topics ->
            is_Some (generate_topic_key (topic_model id)))
         /\ exists tqs dqs s',
              create_topic_graph s docs topics topic_model = Returned s'
              /\ topic_queries topic_model (set_iter topics) = Some tqs
              /\ doc_queries topic_model docs topics = Some dqs
              /\ log s' = log s ++ [MergeTopics tqs; MergeDocuments dqs]
                                ++ keyword_batch topic_model (set_iter topics)
              /\ Forall (fun q => exists w k st, q = MergeKeyword w k st)
                        (keyword_batch topic_model (set_iter topics))))
  /\ create_topic_graph fresh_session
       [py "le chat mange"; py "le chien court"] [0; 0] sample_model
     = Returned
         (Session
            (Graph [Topic (py "1541bb6ac71a71c3d4e39e6071a1f98f")
                          (Some (py "chat, chien"));
                    Document (py "le chat mange");
                    Document (py "le chien court");
                    Keyword (py "chat"); Keyword (py "chien")]
                   [BELONGS_TO 1 0; BELONGS_TO 2 0;
                    REPRESENTS 3 0 (Some 0.9%float);
                    REPRESENTS 4 0 (Some 0.7%float)])
            [MergeTopics [TopicQuery (py "1541bb6ac71a71c3d4e39e6071a1f98f")
                                     (py "chat, chien")];
             MergeDocuments
               [DocQuery (py "le chat mange")
                         (py "1541bb6ac71a71c3d4e39e6071a1f98f");
                DocQuery (py "le chien court")
                         (py "1541bb6ac71a71c3d4e39e6071a1f98f")];
             MergeKeyword (py "chat") (py "1541bb6ac71a71c3d4e39e6071a1f98f")
                          0.9%float;
             MergeKeyword (py "chien") (py "1541bb6ac71a71c3d4e39e6071a1f98f")
                          0.7%float]).
Proof.
  split.
  - intros s docs topics topic_model.
    destruct (create_topic_graph_cases s docs topics topic_model)
      as [[Hnone Hraise]|(tqs & dqs & Htq & Hdq & Hret)]; [left|right].
    + split; [|done].
      destruct (topic_queries_None _ _ Hnone) as (id & Hid & Hk).
      exists id. split; [|done]. by apply (proj1 (set_iter_elem _ _)).
    + split.
      * intros id Hid. apply (proj2 (set_iter_elem _ _)) in Hid.
        destruct (topic_queries_elem _ _ _ id Htq Hid) as (k & Hk & _).
        by exists k.
      * eexists tqs, dqs, _. split; [exact Hret|]. split; [done|].
        split; [done|]. split; [by rewrite log_foldl_run|].
        apply Forall_forall.
        intros q (id & w & k & st & -> & _)%keyword_batch_elem. eauto.
  - unfold create_topic_graph. cbv zeta.
    rewrite (set_iter_one 0 [0; 0]).
    + vm_compute. reflexivity.
    + apply list_elem_of_here.
    + intros y Hy. repeat (apply elem_of_cons in Hy as [->|Hy]; [done|]).
      by apply elem_of_nil in Hy.
Qed.

(** ** The keys of the three batches *)

(** C10: in a run that returns, the topic key of every document record and
    of every keyword statement is the resolved key of a topic id of the
    assignments, and the record of that topic id is in the topic batch. *)
Theorem planner_referential_consistency `{SetIteration}
    s docs topics topic_model s' :
  create_topic_graph s docs topics topic_model = Returned s' ->
  exists tqs dqs kqs,
    log s' = log s ++ MergeTopics tqs :: MergeDocuments dqs :: kqs
    /\ (forall dq, dq ∈ dqs ->
          exists id, id ∈ topics
            /\ generate_topic_key (topic_model id) = Some (dq_topic_key dq)
            /\ TopicQuery (dq_topic_key dq)
                 (join (py ", ") (map (fun '(word, proba) => word) (topic_model id)))
               ∈ tqs)
    /\ (forall w k st, MergeKeyword w k st ∈ kqs ->
          exists id, id ∈ topics
            /\ generate_topic_key (topic_model id) = Some k
            /\ TopicQuery k
                 (join (py ", ") (map (fun '(word, proba) => word) (topic_model id)))
               ∈ tqs).
Proof.
  intros Hret.
  destruct (create_topic_graph_cases s docs topics topic_model)
    as [[_ Hraise]|(tqs & dqs & Htq & Hdq & Hret')]; [congruence|].
  assert (s' = foldl run s (MergeTopics tqs :: MergeDocuments dqs
                            :: keyword_batch topic_model (set_iter topics)))
    as -> by congruence.
  exists tqs, dqs, (keyword_batch topic_model (set_iter topics)).
  split; [by rewrite log_foldl_run|]. split.
  - intros dq (i & Hi)%list_elem_of_lookup.
    destruct (doc_queries_lookup _ _ _ _ _ _ Hdq Hi) as (_ & id & Hid & Hk).
    assert (id ∈ topics) as Hin by (apply list_elem_of_lookup; eauto).
    exists id. split; [done|]. split; [done|].
    destruct (topic_queries_elem _ _ _ id Htq) as (k & Hk' & Hq).
    { by apply set_iter_elem. }
    congruence.
  - intros w k st (id & w' & k' & st' & [= -> -> ->] & Hid & Hk & _)%keyword_batch_elem.
    exists id. split; [by apply set_iter_elem|]. split; [done|].
    destruct (topic_queries_elem _ _ _ id Htq Hid) as (k & Hk' & Hq).
    congruence.
Qed.

Lemma planner_referential_consistency_witness :
  create_topic_graph fresh_session [py "le chat mange"; py "le chien court"] [0; 0]
    sample_model
  = Returned (final (create_topic_graph fresh_session
                       [py "le chat mange"; py "le chien court"] [0; 0] sample_model))
  /\ exists tqs dqs kqs,
    log (final (create_topic_graph fresh_session
                  [py "le chat mange"; py "le chien court"] [0; 0] sample_model))
    = log fresh_session ++ MergeTopics tqs :: MergeDocuments dqs :: kqs
    /\ (forall dq, dq ∈ dqs ->
          exists id, id ∈ [0; 0]
            /\ generate_topic_key (sample_model id) = Some (dq_topic_key dq)
            /\ TopicQuery (dq_topic_key dq)
                 (join (py ", ") (map (fun '(word, proba) => word) (sample_model id)))
               ∈ tqs)
    /\ (forall w k st, MergeKeyword w k st ∈ kqs ->
          exists id, id ∈ [0; 0]
            /\ generate_topic_key (sample_model id) = Some k
            /\ TopicQuery k
                 (join (py ", ") (map (fun '(word, proba) => word) (sample_model id)))
               ∈ tqs).
Proof.
  split; [vm_compute; reflexivity|].
  apply (planner_referential_consistency fresh_session
           [py "le chat mange"; py "le chien court"] [0; 0] sample_model).
  vm_compute. reflexivity.
Defined.

(** ** A document record without its topic *)

(** C1, as the code has it: a document record whose topic key has no Topic
    node is written without error; afterwards its Document node exists, the
    store still has no Topic node with that key, and so no BELONGS_TO
    relationship leads to such a node; a batch of this one record leaves
    the relationships untouched. *)
Theorem document_write_missing_topic g docs doc :
  doc ∈ docs ->
  match_nodes (is_topic (dq_topic_key doc)) g = [] ->
  match_nodes (is_document (dq_content doc)) (exec (MergeDocuments docs) g) <> []
  /\ match_nodes (is_topic (dq_topic_key doc)) (exec (MergeDocuments docs) g) = []
  /\ (forall d t, BELONGS_TO d t ∈ rels (exec (MergeDocuments docs) g) ->
        forall o, nodes (exec (MergeDocuments docs) g) !! t
                  <> Some (Topic (dq_topic_key doc) o))
  /\ exec (MergeDocuments [doc]) g
     = Graph (merged_nodes (is_document (dq_content doc))
                (Document (dq_content doc)) (nodes g)) (rels g).
Proof.
  unfold match_nodes. simpl. intros Hin Hno.
  assert (positions (is_topic (dq_topic_key doc))
            (nodes (foldl run_doc_row g docs)) = []) as Hno'
    by (by rewrite doc_rows_keep_topics).
  split; [by apply doc_rows_document_present|]. split; [done|].
  split; [|by apply doc_row_no_topic].
  intros d t _ o Ht.
  rewrite positions_nil in Hno'. specialize (Hno' _ _ Ht).
  by rewrite is_topic_fresh in Hno'.
Qed.

Lemma document_write_missing_topic_witness :
  DocQuery (py "le chat mange") (py "k") ∈ [DocQuery (py "le chat mange") (py "k")]
  /\ match_nodes (is_topic (py "k")) empty_graph = []
  /\ exec (MergeDocuments [DocQuery (py "le chat mange") (py "k")]) empty_graph
     = Graph [Document (py "le chat mange")] [].
Proof.
  split; [left|]. split; [reflexivity|].
  apply (document_write_missing_topic empty_graph
           [DocQuery (py "le chat mange") (py "k")]
           (DocQuery (py "le chat mange") (py "k"))); [left|reflexivity].
Defined.

(** C1 refuted: on the empty store, a document record that names the
    absent topic key "k" is written without any error; the write returns
    with the Document node created and no BELONGS_TO relationship. *)
Lemma document_write_missing_topic_silent :
  match_nodes (is_topic (py "k")) (store fresh_session) = []
  /\ run fresh_session (MergeDocuments [DocQuery (py "le chat mange") (py "k")])
     = Session (Graph [Document (py "le chat mange")] [])
               [MergeDocuments [DocQuery (py "le chat mange") (py "k")]].
Proof. split; vm_compute; reflexivity. Qed.

(** ** Inputs of different lengths *)

(** C2, as the code has it: documents and assignments of different lengths
    are not rejected.  [zip] pairs them up to the shorter length: the
    document batch has that many records, the i-th made of the i-th document
    and of the key of the i-th assignment; and unless a topic key cannot be
    encoded, in which case the run raises before any statement, the three
    kinds of statement are all run. *)
Theorem length_mismatch_truncates `{SetIteration} s docs topics topic_model :
  length docs <> length topics ->
  (topic_queries topic_model (set_iter topics) = None
   /\ create_topic_graph s docs topics topic_model = Raised UnicodeEncodeError s)
  \/ exists tqs dqs s',
       create_topic_graph s docs topics topic_model = Returned s'
       /\ log s' = log s ++ MergeTopics tqs :: MergeDocuments dqs
                         :: keyword_batch topic_model (set_iter topics)
       /\ length dqs = (length docs `min` length topics)%nat
       /\ (forall i dq, dqs !! i = Some dq ->
             docs !! i = Some (dq_content dq)
             /\ exists id, topics !! i = Some id
                  /\ generate_topic_key (topic_model id) = Some (dq_topic_key dq)).
Proof.
  intros _.
  destruct (create_topic_graph_cases s docs topics topic_model)
    as [Hraise|(tqs & dqs & Htq & Hdq & Hret)]; [by left|right].
  eexists tqs, dqs, _. split; [exact Hret|].
  split; [by rewrite log_foldl_run|].
  split; [by eapply doc_queries_length|].
  intros i dq Hi. by eapply doc_queries_lookup.
Qed.

Lemma length_mismatch_truncates_witness :
  length [py "le chat mange"] <> length [0; 0]
  /\ ((topic_queries sample_model (set_iter [0; 0]) = None
       /\ create_topic_graph fresh_session [py "le chat mange"] [0; 0] sample_model
          = Raised UnicodeEncodeError fresh_session)
      \/ exists tqs dqs s',
           create_topic_graph fresh_session [py "le chat mange"] [0; 0] sample_model
           = Returned s'
           /\ log s' = log fresh_session ++ MergeTopics tqs :: MergeDocuments dqs
                         :: keyword_batch sample_model (set_iter [0; 0])
           /\ length dqs = (length [py "le chat mange"] `min` length [0; 0])%nat
           /\ (forall i dq, dqs !! i = Some dq ->
                 [py "le chat mange"] !! i = Some (dq_content dq)
                 /\ exists id, [0; 0] !! i = Some id
                      /\ generate_topic_key (sample_model id)
                         = Some (dq_topic_key dq))).
Proof.
  split; [simpl; lia|].
  apply (length_mismatch_truncates fresh_session [py "le chat mange"] [0; 0]
           sample_model).
  simpl. lia.
Defined.

(** C2 refuted: one document with two assignments is accepted; the run
    returns after the topic, document and keyword statements, and the second
    assignment is dropped. *)
Lemma length_mismatch_accepted :
  length [py "le chat mange"] <> length [0; 0]
  /\ create_topic_graph fresh_session [py "le chat mange"] [0; 0] sample_model
     = Returned
         (Session
            (Graph [Topic (py "1541bb6ac71a71c3d4e39e6071a1f98f")
                          (Some (py "chat, chien"));
                    Document (py "le chat mange");
                    Keyword (py "chat"); Keyword (py "chien")]
                   [BELONGS_TO 1 0; REPRESENTS 2 0 (Some 0.9%float);
                    REPRESENTS 3 0 (Some 0.7%float)])
            [MergeTopics [TopicQuery (py "1541bb6ac71a71c3d4e39e6071a1f98f")
                                     (py "chat, chien")];
             MergeDocuments [DocQuery (py "le chat mange")
                                      (py "1541bb6ac71a71c3d4e39e6071a1f98f")];
             MergeKeyword (py "chat") (py "1541bb6ac71a71c3d4e39e6071a1f98f")
                          0.9%float;
             MergeKeyword (py "chien") (py "1541bb6ac71a71c3d4e39e6071a1f98f")
                          0.7%float]).
Proof. split; [simpl; lia|]. vm_compute. reflexivity. Qed.

(** ** The topic batch *)

(** C3, as the code has it: the topic batch holds one record per distinct
    topic id, in the iteration order of the set, and is not de-duplicated by
    key.  Records that share a key collapse in the store only: after the
    topic statement a key of the batch that had no Topic node has exactly
    one, and every Topic node with that key carries the keywords of the
    last record with that key. *)
Theorem topic_batch_one_record_per_topic_id `{SetIteration}
    topics (topic_model : model) tqs :
  topic_queries topic_model (set_iter topics) = Some tqs ->
  NoDup (set_iter topics)
  /\ (forall id, id ∈ set_iter topics <-> id ∈ topics)
  /\ Forall2 (fun id q =>
                generate_topic_key (topic_model id) = Some (tq_key q)
                /\ tq_keywords q
                   = join (py ", ") (map (fun '(word, proba) => word) (topic_model id)))
             (set_iter topics) tqs
  /\ (forall g q, q ∈ tqs ->
        length (match_nodes (is_topic (tq_key q)) (exec (MergeTopics tqs) g))
        = (1 `max` length (match_nodes (is_topic (tq_key q)) g))%nat)
  /\ (forall g front q back i o,
        tqs = front ++ q :: back ->
        (forall q', q' ∈ back -> tq_key q' <> tq_key q) ->
        nodes (exec (MergeTopics tqs) g) !! i = Some (Topic (tq_key q) o) ->
        o = Some (tq_keywords q)).
Proof.
  intros Htq. split; [apply set_iter_NoDup|]. split; [apply set_iter_elem|].
  split; [|split].
  - apply mapM_Some in Htq. eapply Forall2_impl; [exact Htq|].
    intros id q Hq. simpl in Hq.
    destruct (generate_topic_key (topic_model id)); [|done].
    by injection Hq as <-.
  - intros g q Hin. by apply topic_rows_one_node.
  - intros g front q back i o -> Hback Hi.
    pose proof (topic_rows_settled g (front ++ q :: back) _ _ _ Hi) as Hset.
    by rewrite last_keywords_last in Hset.
Qed.

Lemma topic_batch_one_record_per_topic_id_witness :
  topic_queries constant_model (set_iter [0; 1])
  = Some [TopicQuery (py "0cc175b9c0f1b6a831c399e269772661") (py "a");
          TopicQuery (py "0cc175b9c0f1b6a831c399e269772661") (py "a")]
  /\ Forall2 (fun id q =>
                generate_topic_key (constant_model id) = Some (tq_key q)
                /\ tq_keywords q
                   = join (py ", ") (map (fun '(word, proba) => word) (constant_model id)))
             (set_iter [0; 1])
             [TopicQuery (py "0cc175b9c0f1b6a831c399e269772661") (py "a");
              TopicQuery (py "0cc175b9c0f1b6a831c399e269772661") (py "a")].
Proof.
  split; [vm_compute; reflexivity|].
  apply (topic_batch_one_record_per_topic_id [0; 1] constant_model).
  vm_compute. reflexivity.
Defined.

(** C3 refuted: the topic ids 0 and 1 have the same keyword list, hence the
    same key, and the topic batch holds two records with that key. *)
Lemma topic_batch_not_deduplicated :
  (0 : Z) <> 1
  /\ generate_topic_key (constant_model 0) = generate_topic_key (constant_model 1)
  /\ topic_queries constant_model (set_iter [0; 1])
     = Some [TopicQuery (py "0cc175b9c0f1b6a831c399e269772661") (py "a");
             TopicQuery (py "0cc175b9c0f1b6a831c399e269772661") (py "a")].
Proof. split; [done|]. split; vm_compute; reflexivity. Qed.

(** ** The REPRESENTS relationship *)

Lemma positions_pointwise {A} (p q : A -> bool) (l : list A) :
  (forall x, q x = p x) -> positions q l = positions p l.
Proof. intros Hpq. apply positions_ext; [done|]. eauto. Qed.

(** In a store without duplicates a word and a key have at most one
    REPRESENTS relationship between them. *)
Lemma one_relationship_per_word_and_key g r :
  no_duplicates g ->
  (length (positions (row_binds (nodes g) r) (rels g)) <= 1)%nat.
Proof.
  intros [Ht _ Hk _ Hr]. unfold row_binds.
  specialize (Hk r.1.1). specialize (Ht r.1.2).
  assert (forall l : list rel, positions (in_pairs is_represents []) l = [])
    as Hnone by (intros l; by apply positions_nil).
  destruct (positions (is_keyword r.1.1) (nodes g)) as [|x [|? ?]];
    [by rewrite Hnone| |simpl in Hk; lia].
  destruct (positions (is_topic r.1.2) (nodes g)) as [|t [|? ?]];
    [by rewrite Hnone| |simpl in Ht; lia].
  rewrite (positions_pointwise (is_represents x t)); [apply Hr|].
  intros e. simpl. apply orb_false_r.
Qed.

(** C7: a store built by the statements from the empty store has at most
    one REPRESENTS relationship between two nodes, at most one Keyword
    node for a word and one Topic node for a key, hence at most one
    REPRESENTS relationship for a word and a key; a keyword statement leaves
    the Keyword node related to every Topic node of the key, with the
    strength of the statement on these relationships, whatever it was
    before; writing "crisis" for a topic first with 0.8 and then with 0.5
    leaves one relationship, with strength 0.5. *)
Theorem represents_edge_overwritten :
  (forall stmts,
     no_duplicates (foldl (fun g q => exec q g) empty_graph stmts))
  /\ (forall stmts w k s,
        (length (positions
                   (row_binds
                      (nodes (foldl (fun g q => exec q g) empty_graph stmts))
                      (w, k, s))
                   (rels (foldl (fun g q => exec q g) empty_graph stmts)))
         <= 1)%nat)
  /\ (forall g w k s,
        linked (is_keyword w) (is_topic k) is_represents
               (exec (MergeKeyword w k s) g)
        /\ forall j x t o ok,
             rels (exec (MergeKeyword w k s) g) !! j = Some (REPRESENTS x t o) ->
             nodes (exec (MergeKeyword w k s) g) !! x = Some (Keyword w) ->
             nodes (exec (MergeKeyword w k s) g) !! t = Some (Topic k ok) ->
             o = Some s)
  /\ (forall T ok,
        exec (MergeKeyword (py "crisis") T 0.5%float)
          (exec (MergeKeyword (py "crisis") T 0.8%float) (Graph [Topic T ok] []))
        = Graph [Topic T ok; Keyword (py "crisis")]
                [REPRESENTS 1 0 (Some 0.5%float)]).
Proof.
  assert (forall stmts,
            no_duplicates (foldl (fun g q => exec q g) empty_graph stmts))
    as Hreach.
  { intros stmts. apply foldl_no_duplicates; [|apply empty_graph_no_duplicates].
    intros g q. apply exec_no_duplicates. }
  split; [done|]. split; [|split].
  - intros stmts w k s. apply one_relationship_per_word_and_key, Hreach.
  - intros g w k s. split.
    + apply (keyword_row_linked g (w, k, s)).
    + intros j x t o ok. apply keyword_statement_overwrites.
  - intros T ok. unfold exec.
    assert (positions (is_topic T) [Topic T ok; Keyword (py "crisis")] = [0%nat])
      as Hpos.
    { rewrite (positions_snoc _ [Topic T ok] (Keyword (py "crisis"))).
      rewrite (positions_snoc _ [] (Topic T ok)), is_topic_fresh. done. }
    rewrite (run_keyword_eq (Graph [Topic T ok] [])). cbv zeta. cbn [nodes rels].
    change (merged_nodes _ _ [Topic T ok])
      with [Topic T ok; Keyword (py "crisis")].
    rewrite Hpos.
    rewrite run_keyword_eq. cbv zeta. cbn [nodes rels].
    change (merged_nodes _ _ [Topic T ok; Keyword (py "crisis")])
      with [Topic T ok; Keyword (py "crisis")].
    rewrite Hpos. reflexivity.
Qed.

(** ** Running the pipeline twice *)

(** A run that returns can be run again, and then changes nothing. *)
Lemma create_topic_graph_again `{SetIteration} s docs topics topic_model s1 :
  create_topic_graph s docs topics topic_model = Returned s1 ->
  exists s2, create_topic_graph s1 docs topics topic_model = Returned s2
             /\ store s2 = store s1.
Proof.
  intros Hret.
  destruct (create_topic_graph_cases s docs topics topic_model)
    as [[_ Hraise]|(tqs & dqs & Htq & Hdq & Hret1)]; [congruence|].
  destruct (create_topic_graph_cases s1 docs topics topic_model)
    as [[Htq' _]|(tqs' & dqs' & Htq' & Hdq' & Hret2)]; [congruence|].
  assert (tqs' = tqs) as -> by congruence.
  assert (dqs' = dqs) as -> by congruence.
  eexists. split; [exact Hret2|].
  rewrite store_after_run.
  assert (s1 = foldl run s (MergeTopics tqs :: MergeDocuments dqs
                            :: keyword_batch topic_model (set_iter topics)))
    as -> by congruence.
  rewrite store_after_run. apply phases_fixpoint.
Qed.

(** C5: a second run of [create_topic_graph] on the same input, started on
    the store that the first run has left, leaves that store as it is: it
    ends as the first one (returns, or raises before any statement), and
    the nodes and the relationships are the same, one for one; a store
    without duplicate nodes or relationships is still without any after the
    two runs. *)
Theorem create_topic_graph_idempotent `{SetIteration} s docs topics topic_model :
  let once := create_topic_graph s docs topics topic_model in
  let twice := create_topic_graph (final once) docs topics topic_model in
  store (final twice) = store (final once)
  /\ (forall s1, once = Returned s1 -> exists s2, twice = Returned s2)
  /\ (forall e s1, once = Raised e s1 -> twice = Raised e s1 /\ s1 = s)
  /\ (no_duplicates (store s) -> no_duplicates (store (final twice))).
Proof.
  intros once twice. subst twice.
  assert (no_duplicates (store s) ->
          no_duplicates
            (store (final (create_topic_graph (final once) docs topics topic_model))))
    as Hnodup by (intros Hs; by do 2 apply create_topic_graph_no_duplicates).
  destruct (create_topic_graph_cases s docs topics topic_model)
    as [[_ Hraise]|(tqs & dqs & _ & _ & Hret)]; subst once.
  - rewrite Hraise in *. cbn [final] in *. rewrite Hraise. cbn [final].
    split; [done|]. split; [done|]. split; [|done]. by intros [] s1 [= <-].
  - rewrite Hret in *. cbn [final] in *.
    destruct (create_topic_graph_again _ _ _ _ _ Hret) as (s2 & Hret2 & Hsame).
    rewrite Hret2 in *. cbn [final] in *.
    split; [done|]. split; [by eauto|]. split; [done|done].
Qed.

Lemma create_topic_graph_idempotent_witness :
  store (final (create_topic_graph
                  (final (create_topic_graph fresh_session
                            [py "le chat mange"; py "le chien court"] [0; 0]
                            sample_model))
                  [py "le chat mange"; py "le chien court"] [0; 0] sample_model))
  = Graph [Topic (py "1541bb6ac71a71c3d4e39e6071a1f98f") (Some (py "chat, chien"));
           Document (py "le chat mange"); Document (py "le chien court");
           Keyword (py "chat"); Keyword (py "chien")]
          [BELONGS_TO 1 0; BELONGS_TO 2 0;
           REPRESENTS 3 0 (Some 0.9%float); REPRESENTS 4 0 (Some 0.7%float)]
  /\ no_duplicates
       (store (final (create_topic_graph
                        (final (create_topic_graph fresh_session
                                  [py "le chat mange"; py "le chien court"] [0; 0]
                                  sample_model))
                        [py "le chat mange"; py "le chien court"] [0; 0]
                        sample_model))).
Proof.
  destruct (create_topic_graph_idempotent fresh_session
              [py "le chat mange"; py "le chien court"] [0; 0] sample_model)
    as (Hsame & _ & _ & Hnodup).
  split.
  - rewrite Hsame. vm_compute. reflexivity.
  - apply Hnodup. apply empty_graph_no_duplicates.
Defined.

(** * Further properties of the run *)

(** ** What a returning run has written *)

Lemma store_after_phases g tqs dqs rows :
  let g3 := foldl run_keyword_row
              (foldl run_doc_row (foldl run_topic_row g tqs) dqs) rows in
  topics_present tqs g3 /\ topics_settled tqs g3 /\ documents_linked dqs g3
  /\ keywords_linked rows g3 /\ strengths_settled rows g3.
Proof.
  intros g3. split; [|split; [|split; [|split]]].
  - apply keyword_rows_keep_topics_present, doc_rows_keep_topics_present,
      topic_rows_present.
  - apply keyword_rows_keep_topics_settled, doc_rows_keep_topics_settled,
      topic_rows_settled.
  - apply keyword_rows_keep_documents_linked, doc_rows_linked.
  - apply keyword_rows_linked.
  - apply keyword_rows_settled.
Qed.

(** The shape of a returning run, with what its store holds. *)
Lemma create_topic_graph_returned `{SetIteration} s docs topics topic_model s' :
  create_topic_graph s docs topics topic_model = Returned s' ->
  exists tqs dqs,
    topic_queries topic_model (set_iter topics) = Some tqs
    /\ doc_queries topic_model docs topics = Some dqs
    /\ log s' = log s ++ MergeTopics tqs :: MergeDocuments dqs
                      :: keyword_batch topic_model (set_iter topics)
    /\ topics_present tqs (store s') /\ topics_settled tqs (store s')
    /\ documents_linked dqs (store s')
    /\ keywords_linked (keyword_rows topic_model (set_iter topics)) (store s')
    /\ strengths_settled (keyword_rows topic_model (set_iter topics)) (store s').
Proof.
  intros Hret.
  destruct (create_topic_graph_cases s docs topics topic_model)
    as [[_ Hraise]|(tqs & dqs & Htq & Hdq & Hret')]; [congruence|].
  assert (s' = foldl run s (MergeTopics tqs :: MergeDocuments dqs
                            :: keyword_batch topic_model (set_iter topics)))
    as -> by congruence.
  exists tqs, dqs. split; [done|]. split; [done|].
  split; [by rewrite log_foldl_run|].
  rewrite store_after_run. apply store_after_phases.
Qed.

Lemma positions_belongs_to l d t :
  positions (is_belongs_to d t) l <> [] <-> BELONGS_TO d t ∈ l.
Proof.
  rewrite positions_not_nil, list_elem_of_lookup. split.
  - intros (i & [a b|a b o] & Hi & Hp); [|done].
    apply is_belongs_to_inj in Hp as [-> ->]. eauto.
  - intros [i Hi]. exists i, (BELONGS_TO d t).
    split; [done|apply is_belongs_to_fresh].
Qed.

Lemma positions_represents l k t :
  positions (is_represents k t) l <> [] <-> exists o, REPRESENTS k t o ∈ l.
Proof.
  rewrite positions_not_nil. split.
  - intros (i & [a b|a b o] & Hi & Hp); [done|].
    apply is_represents_inj in Hp as [-> ->].
    exists o. apply list_elem_of_lookup. eauto.
  - intros [o [i Hi]%list_elem_of_lookup]. exists i, (REPRESENTS k t o).
    split; [done|apply is_represents_fresh].
Qed.

Lemma doc_queries_lookup_inv (topic_model : model) docs topics dqs i d id :
  doc_queries topic_model docs topics = Some dqs ->
  docs !! i = Some d -> topics !! i = Some id ->
  exists k, generate_topic_key (topic_model id) = Some k
            /\ dqs !! i = Some (DocQuery d k).
Proof.
  intros Hdq Hd Hid.
  assert (i < length dqs)%nat as [dq Hi]%lookup_lt_is_Some.
  { rewrite (doc_queries_length _ _ _ _ Hdq).
    apply lookup_lt_Some in Hd. apply lookup_lt_Some in Hid. lia. }
  destruct (doc_queries_lookup _ _ _ _ _ _ Hdq Hi) as (Hd' & id' & Hid' & Hk).
  assert (id' = id) as -> by congruence.
  exists (dq_topic_key dq). split; [done|].
  rewrite Hi. destruct dq as [c k]. simpl in *. congruence.
Qed.

(** X1: in a run that returns, the i-th document has a Document node, the
    key of the i-th assignment has a Topic node, and every such Document
    node has a BELONGS_TO relationship to every such Topic node. *)
Theorem documents_belong_to_their_topics `{SetIteration}
    s docs topics topic_model s' i d id :
  create_topic_graph s docs topics topic_model = Returned s' ->
  docs !! i = Some d -> topics !! i = Some id ->
  exists k,
    generate_topic_key (topic_model id) = Some k
    /\ match_nodes (is_document d) (store s') <> []
    /\ match_nodes (is_topic k) (store s') <> []
    /\ forall a b,
         a ∈ match_nodes (is_document d) (store s') ->
         b ∈ match_nodes (is_topic k) (store s') ->
         BELONGS_TO a b ∈ rels (store s').
Proof.
  intros Hret Hd Hid.
  destruct (create_topic_graph_returned _ _ _ _ _ Hret)
    as (tqs & dqs & Htq & Hdq & _ & Htp & _ & Hdl & _).
  destruct (doc_queries_lookup_inv _ _ _ _ _ _ _ Hdq Hd Hid) as (k & Hk & Hi).
  exists k. split; [done|].
  destruct (Hdl (DocQuery d k)) as [Hsrc Hrel].
  { apply list_elem_of_lookup. eauto. }
  split; [done|]. split.
  - destruct (topic_queries_elem _ _ _ id Htq) as (k' & Hk' & Hq).
    { apply set_iter_elem, list_elem_of_lookup. eauto. }
    assert (k' = k) as -> by congruence. apply (Htp _ Hq).
  - intros a b Ha Hb. apply positions_belongs_to. by apply Hrel.
Qed.

Lemma documents_belong_to_their_topics_witness :
  create_topic_graph fresh_session [py "le chat mange"; py "le chien court"] [0; 0]
    sample_model
  = Returned (final (create_topic_graph fresh_session
                       [py "le chat mange"; py "le chien court"] [0; 0] sample_model))
  /\ [py "le chat mange"; py "le chien court"] !! 1%nat = Some (py "le chien court")
  /\ [0; 0] !! 1%nat = Some 0
  /\ exists k,
    generate_topic_key (sample_model 0) = Some k
    /\ match_nodes (is_document (py "le chien court"))
         (store (final (create_topic_graph fresh_session
                          [py "le chat mange"; py "le chien court"] [0; 0]
                          sample_model))) <> []
    /\ match_nodes (is_topic k)
         (store (final (create_topic_graph fresh_session
                          [py "le chat mange"; py "le chien court"] [0; 0]
                          sample_model))) <> []
    /\ forall a b,
         a ∈ match_nodes (is_document (py "le chien court"))
               (store (final (create_topic_graph fresh_session
                                [py "le chat mange"; py "le chien court"] [0; 0]
                                sample_model))) ->
         b ∈ match_nodes (is_topic k)
               (store (final (create_topic_graph fresh_session
                                [py "le chat mange"; py "le chien court"] [0; 0]
                                sample_model))) ->
         BELONGS_TO a b
         ∈ rels (store (final (create_topic_graph fresh_session
                                 [py "le chat mange"; py "le chien court"] [0; 0]
                                 sample_model))).
Proof.
  split; [vm_compute; reflexivity|]. split; [reflexivity|]. split; [reflexivity|].
  apply (documents_belong_to_their_topics fresh_session
           [py "le chat mange"; py "le chien court"] [0; 0] sample_model _ 1%nat);
    [vm_compute; reflexivity|reflexivity|reflexivity].
Defined.

Lemma keyword_rows_elem (topic_model : model) ids id w k st :
  id ∈ ids -> generate_topic_key (topic_model id) = Some k ->
  (w, st) ∈ topic_model id ->
  (w, k, st) ∈ keyword_rows topic_model ids.
Proof.
  intros Hid Hk Hin. unfold keyword_rows. apply list_elem_of_bind.
  exists id. split; [|done]. rewrite Hk.
  apply list_elem_of_In, in_map_iff. exists (w, st).
  split; [done|by apply list_elem_of_In].
Qed.

(** X2: in a run that returns, every keyword of every assigned topic has a
    Keyword node, the key of the topic has a Topic node, and every such
    Keyword node has a REPRESENTS relationship to every such Topic node. *)
Theorem keywords_represent_their_topics `{SetIteration}
    s docs topics topic_model s' id w st :
  create_topic_graph s docs topics topic_model = Returned s' ->
  id ∈ topics -> (w, st) ∈ topic_model id ->
  exists k,
    generate_topic_key (topic_model id) = Some k
    /\ match_nodes (is_keyword w) (store s') <> []
    /\ match_nodes (is_topic k) (store s') <> []
    /\ forall a b,
         a ∈ match_nodes (is_keyword w) (store s') ->
         b ∈ match_nodes (is_topic k) (store s') ->
         exists o, REPRESENTS a b o ∈ rels (store s').
Proof.
  intros Hret Hid Hw.
  destruct (create_topic_graph_returned _ _ _ _ _ Hret)
    as (tqs & dqs & Htq & _ & _ & Htp & _ & _ & Hkl & _).
  apply set_iter_elem in Hid.
  destruct (topic_queries_elem _ _ _ id Htq Hid) as (k & Hk & Hq).
  exists k. split; [done|].
  destruct (Hkl (w, k, st)) as [Hsrc Hrel]; [by eapply keyword_rows_elem|].
  split; [done|]. split; [apply (Htp _ Hq)|].
  intros a b Ha Hb. apply positions_represents. by apply Hrel.
Qed.

Lemma keywords_represent_their_topics_witness :
  create_topic_graph fresh_session [py "le chat mange"; py "le chien court"] [0; 0]
    sample_model
  = Returned (final (create_topic_graph fresh_session
                       [py "le chat mange"; py "le chien court"] [0; 0] sample_model))
  /\ (0 : Z) ∈ [0; 0]
  /\ (py "chien", 0.7%float) ∈ sample_model 0
  /\ exists k,
    generate_topic_key (sample_model 0) = Some k
    /\ match_nodes (is_keyword (py "chien"))
         (store (final (create_topic_graph fresh_session
                          [py "le chat mange"; py "le chien court"] [0; 0]
                          sample_model))) <> []
    /\ match_nodes (is_topic k)
         (store (final (create_topic_graph fresh_session
                          [py "le chat mange"; py "le chien court"] [0; 0]
                          sample_model))) <> []
    /\ forall a b,
         a ∈ match_nodes (is_keyword (py "chien"))
               (store (final (create_topic_graph fresh_session
                                [py "le chat mange"; py "le chien court"] [0; 0]
                                sample_model))) ->
         b ∈ match_nodes (is_topic k)
               (store (final (create_topic_graph fresh_session
                                [py "le chat mange"; py "le chien court"] [0; 0]
                                sample_model))) ->
         exists o,
           REPRESENTS a b o
           ∈ rels (store (final (create_topic_graph fresh_session
                                   [py "le chat mange"; py "le chien court"] [0; 0]
                                   sample_model))).
Proof.
  split; [vm_compute; reflexivity|]. split; [left|].
  split; [right; left|].
  apply (keywords_represent_their_topics fresh_session
           [py "le chat mange"; py "le chien court"] [0; 0] sample_model _ 0
           (py "chien") 0.7%float);
    [vm_compute; reflexivity|left|right; left].
Defined.

Lemma last_strength_last front (r : keyword_row) back o :
  (forall r', r' ∈ back -> r'.1 <> r.1) ->
  last_strength r.1.1 r.1.2 (front ++ r :: back) o = Some r.2.
Proof.
  intros Hno. unfold last_strength. rewrite foldl_app. simpl.
  rewrite !bool_decide_eq_true_2 by done. simpl.
  generalize (Some r.2). induction back as [|r' back IH]; intros o'; [done|].
  simpl. destruct (bool_decide _ && bool_decide _) eqn:Hb.
  - apply andb_true_iff in Hb as [Hw%bool_decide_eq_true_1 Hk%bool_decide_eq_true_1].
    exfalso. apply (Hno r'); [left|]. destruct r' as [[w' k'] s'], r as [[w k] s].
    simpl in *. congruence.
  - apply IH. intros r'' Hin. apply Hno. by right.
Qed.

(** X3: in a run that returns, the strength of a REPRESENTS relationship
    from a Keyword node to a Topic node is the weight of the last keyword
    statement of the run for this word and this key. *)
Theorem strength_is_last_weight `{SetIteration}
    s docs topics topic_model s' front w k st back :
  create_topic_graph s docs topics topic_model = Returned s' ->
  log s' = log s ++ front ++ MergeKeyword w k st :: back ->
  (forall st', MergeKeyword w k st' ∉ back) ->
  forall j x t o ok,
    rels (store s') !! j = Some (REPRESENTS x t o) ->
    nodes (store s') !! x = Some (Keyword w) ->
    nodes (store s') !! t = Some (Topic k ok) ->
    o = Some st.
Proof.
  intros Hret Hlog Hback j x t o ok Hj Hx Ht.
  destruct (create_topic_graph_returned _ _ _ _ _ Hret)
    as (tqs & dqs & _ & _ & Hlog' & _ & _ & _ & _ & Hset).
  rewrite Hlog' in Hlog. apply app_inv_head in Hlog.
  rewrite keyword_batch_rows in Hlog.
  destruct front as [|q1 [|q2 front]]; simpl in Hlog; [done|done|].
  injection Hlog as _ _ Hlog.
  apply fmap_app_inv in Hlog as (rfront & rrest & _ & Hrest & Hrows).
  symmetry in Hrest.
  apply fmap_cons_inv in Hrest as (r & rback & Hr & -> & ->).
  destruct r as [[w' k'] st']. unfold keyword_statement in Hr. simpl in Hr.
  injection Hr as Hw Hk Hst. subst w' k' st'.
  specialize (Hset j x t o w k ok Hj Hx Ht). rewrite Hrows in Hset.
  rewrite (last_strength_last rfront (w, k, st) rback) in Hset; [done|].
  intros [[w' k'] st'] Hin Heq. simpl in Heq. injection Heq as -> ->.
  apply (Hback st'). apply list_elem_of_fmap. by exists (w, k, st').
Qed.

Lemma strength_is_last_weight_witness :
  create_topic_graph fresh_session [py "d"] [0] repeating_model
  = Returned (final (create_topic_graph fresh_session [py "d"] [0] repeating_model))
  /\ log (final (create_topic_graph fresh_session [py "d"] [0] repeating_model))
     = log fresh_session
       ++ [MergeTopics [TopicQuery (py "6d9eedc31525befc60af5b6dbbd9f3e5") (py "a, a")];
           MergeDocuments [DocQuery (py "d") (py "6d9eedc31525befc60af5b6dbbd9f3e5")];
           MergeKeyword (py "a") (py "6d9eedc31525befc60af5b6dbbd9f3e5") 0.8%float]
       ++ MergeKeyword (py "a") (py "6d9eedc31525befc60af5b6dbbd9f3e5") 0.5%float
          :: []
  /\ (forall st', MergeKeyword (py "a") (py "6d9eedc31525befc60af5b6dbbd9f3e5") st'
                  ∉ @nil statement)
  /\ rels (store (final (create_topic_graph fresh_session [py "d"] [0]
                           repeating_model)))
     = [BELONGS_TO 1 0; REPRESENTS 2 0 (Some 0.5%float)]
  /\ forall j x t o ok,
       rels (store (final (create_topic_graph fresh_session [py "d"] [0]
                             repeating_model))) !! j
       = Some (REPRESENTS x t o) ->
       nodes (store (final (create_topic_graph fresh_session [py "d"] [0]
                              repeating_model))) !! x
       = Some (Keyword (py "a")) ->
       nodes (store (final (create_topic_graph fresh_session [py "d"] [0]
                              repeating_model))) !! t
       = Some (Topic (py "6d9eedc31525befc60af5b6dbbd9f3e5") ok) ->
       o = Some 0.5%float.
Proof.
  split; [vm_compute; reflexivity|]. split; [vm_compute; reflexivity|].
  split; [intros st'; apply not_elem_of_nil|]. split; [vm_compute; reflexivity|].
  apply (strength_is_last_weight fresh_session [py "d"] [0] repeating_model _
           [MergeTopics [TopicQuery (py "6d9eedc31525befc60af5b6dbbd9f3e5") (py "a, a")];
            MergeDocuments [DocQuery (py "d") (py "6d9eedc31525befc60af5b6dbbd9f3e5")];
            MergeKeyword (py "a") (py "6d9eedc31525befc60af5b6dbbd9f3e5") 0.8%float]
           (py "a") (py "6d9eedc31525befc60af5b6dbbd9f3e5") 0.5%float []);
    [vm_compute; reflexivity|vm_compute; reflexivity|].
  intros st'. apply not_elem_of_nil.
Defined.

Lemma topic_queries_last (topic_model : model) front id back tqs k :
  topic_queries topic_model (front ++ id :: back) = Some tqs ->
  generate_topic_key (topic_model id) = Some k ->
  (forall id', id' ∈ back -> generate_topic_key (topic_model id') <> Some k) ->
  exists tfront tback,
    tqs = tfront
          ++ TopicQuery k (join (py ", ") (map (fun '(word, proba) => word)
                                               (topic_model id)))
          :: tback
    /\ forall q, q ∈ tback -> tq_key q <> k.
Proof.
  intros Htq Hk Hback. apply mapM_Some in Htq.
  apply Forall2_app_inv_l in Htq as (tfront & trest & _ & Hrest & ->).
  apply Forall2_cons_inv_l in Hrest as (q & tback & Hq & Hrest & ->).
  rewrite Hk in Hq. injection Hq as <-.
  exists tfront, tback. split; [done|].
  intros q (j & Hj)%list_elem_of_lookup Hkey.
  destruct (Forall2_lookup_r _ _ _ _ _ Hrest Hj) as (id' & Hid' & Hq').
  apply (Hback id'); [apply list_elem_of_lookup; eauto|].
  destruct (generate_topic_key (topic_model id')); [|done].
  injection Hq' as <-. simpl in Hkey. by rewrite Hkey.
Qed.

(** X4: in a run that returns, the [keywords] property of every Topic node
    with the key of an assigned topic is the words of that topic joined by
    ", "; when several topic ids resolve to this key, the words are those of
    the last one in the iteration order of the set. *)
Theorem topic_keywords_are_last `{SetIteration}
    s docs topics topic_model s' front id back k :
  create_topic_graph s docs topics topic_model = Returned s' ->
  set_iter topics = front ++ id :: back ->
  generate_topic_key (topic_model id) = Some k ->
  (forall id', id' ∈ back -> generate_topic_key (topic_model id') <> Some k) ->
  forall i o,
    nodes (store s') !! i = Some (Topic k o) ->
    o = Some (join (py ", ") (map (fun '(word, proba) => word) (topic_model id))).
Proof.
  intros Hret Hids Hk Hback i o Hi.
  destruct (create_topic_graph_returned _ _ _ _ _ Hret)
    as (tqs & dqs & Htq & _ & _ & _ & Hts & _).
  rewrite Hids in Htq.
  destruct (topic_queries_last _ _ _ _ _ _ Htq Hk Hback)
    as (tfront & tback & -> & Htback).
  specialize (Hts i k o Hi).
  by rewrite (last_keywords_last tfront (TopicQuery k _) tback) in Hts.
Qed.

Lemma topic_keywords_are_last_witness :
  create_topic_graph fresh_session [py "le chat mange"; py "le chien court"] [0; 0]
    sample_model
  = Returned (final (create_topic_graph fresh_session
                       [py "le chat mange"; py "le chien court"] [0; 0] sample_model))
  /\ set_iter [0; 0] = [] ++ 0 :: []
  /\ generate_topic_key (sample_model 0)
     = Some (py "1541bb6ac71a71c3d4e39e6071a1f98f")
  /\ (forall id', id' ∈ @nil Z ->
        generate_topic_key (sample_model id')
        <> Some (py "1541bb6ac71a71c3d4e39e6071a1f98f"))
  /\ forall i o,
       nodes (store (final (create_topic_graph fresh_session
                              [py "le chat mange"; py "le chien court"] [0; 0]
                              sample_model))) !! i
       = Some (Topic (py "1541bb6ac71a71c3d4e39e6071a1f98f") o) ->
       o = Some (join (py ", ") (map (fun '(word, proba) => word) (sample_model 0))).
Proof.
  split; [vm_compute; reflexivity|]. split; [reflexivity|].
  split; [vm_compute; reflexivity|].
  split; [by intros id' ?%elem_of_nil|].
  apply (topic_keywords_are_last fresh_session
           [py "le chat mange"; py "le chien court"] [0; 0] sample_model _ [] 0 []);
    [vm_compute; reflexivity|reflexivity|vm_compute; reflexivity|].
  by intros id' ?%elem_of_nil.
Defined.

(** ** A store without duplicates *)

Lemma one_element {A} (l : list A) :
  (length l <= 1)%nat -> l <> [] -> exists a, l = [a].
Proof. destruct l as [|a [|b l]]; simpl; intros; [done|by exists a|lia]. Qed.

Lemma returned_document_linked `{SetIteration}
    s docs topics topic_model s' i d id :
  create_topic_graph s docs topics topic_model = Returned s' ->
  docs !! i = Some d -> topics !! i = Some id ->
  exists k,
    generate_topic_key (topic_model id) = Some k
    /\ positions (is_topic k) (nodes (store s')) <> []
    /\ linked (is_document d) (is_topic k) is_belongs_to (store s').
Proof.
  intros Hret Hd Hid.
  destruct (create_topic_graph_returned _ _ _ _ _ Hret)
    as (tqs & dqs & Htq & Hdq & _ & Htp & _ & Hdl & _).
  destruct (doc_queries_lookup_inv _ _ _ _ _ _ _ Hdq Hd Hid) as (k & Hk & Hi).
  exists k. split; [done|]. split.
  - destruct (topic_queries_elem _ _ _ id Htq) as (k' & Hk' & Hq).
    { apply set_iter_elem, list_elem_of_lookup. eauto. }
    assert (k' = k) as -> by congruence. apply (Htp _ Hq).
  - apply (Hdl (DocQuery d k)). apply list_elem_of_lookup. eauto.
Qed.

Lemma returned_keyword_linked `{SetIteration}
    s docs topics topic_model s' id w st :
  create_topic_graph s docs topics topic_model = Returned s' ->
  id ∈ topics -> (w, st) ∈ topic_model id ->
  exists k,
    generate_topic_key (topic_model id) = Some k
    /\ positions (is_topic k) (nodes (store s')) <> []
    /\ linked (is_keyword w) (is_topic k) is_represents (store s').
Proof.
  intros Hret Hid Hw.
  destruct (create_topic_graph_returned _ _ _ _ _ Hret)
    as (tqs & dqs & Htq & _ & _ & Htp & _ & _ & Hkl & _).
  apply set_iter_elem in Hid.
  destruct (topic_queries_elem _ _ _ id Htq Hid) as (k & Hk & Hq).
  exists k. split; [done|]. split; [apply (Htp _ Hq)|].
  apply (Hkl (w, k, st)). by eapply keyword_rows_elem.
Qed.

(** X5: when the store has no duplicates before a run that returns, then
    after it the i-th document has exactly one Document node, however often
    it occurs in the input, the key of its assignment exactly one Topic
    node, and exactly one BELONGS_TO relationship leads from the one to the
    other. *)
Theorem one_document_node_one_edge `{SetIteration}
    s docs topics topic_model s' i d id :
  no_duplicates (store s) ->
  create_topic_graph s docs topics topic_model = Returned s' ->
  docs !! i = Some d -> topics !! i = Some id ->
  exists k a b,
    generate_topic_key (topic_model id) = Some k
    /\ match_nodes (is_document d) (store s') = [a]
    /\ match_nodes (is_topic k) (store s') = [b]
    /\ BELONGS_TO a b ∈ rels (store s')
    /\ length (positions (is_belongs_to a b) (rels (store s'))) = 1%nat.
Proof.
  intros Hnd Hret Hd Hid.
  destruct (returned_document_linked _ _ _ _ _ _ _ _ Hret Hd Hid)
    as (k & Hk & Htopic & Hsrc & Hrel).
  pose proof (create_topic_graph_no_duplicates s docs topics topic_model Hnd)
    as [Hut Hud _ Hub _].
  rewrite Hret in Hut, Hud, Hub. cbn [final] in Hut, Hud, Hub.
  destruct (one_element _ (Hud d) Hsrc) as [a Ha].
  destruct (one_element _ (Hut k) Htopic) as [b Hb].
  assert (positions (is_belongs_to a b) (rels (store s')) <> []) as Hab.
  { apply Hrel; [rewrite Ha|rewrite Hb]; left. }
  exists k, a, b. split; [done|]. split; [done|]. split; [done|].
  split; [by apply positions_belongs_to|].
  destruct (one_element _ (Hub a b) Hab) as [j ->]. done.
Qed.

Lemma one_document_node_one_edge_witness :
  no_duplicates (store fresh_session)
  /\ create_topic_graph fresh_session [py "d"; py "d"] [0; 0] sample_model
     = Returned (final (create_topic_graph fresh_session [py "d"; py "d"] [0; 0]
                          sample_model))
  /\ [py "d"; py "d"] !! 1%nat = Some (py "d")
  /\ [0; 0] !! 1%nat = Some 0
  /\ exists k a b,
    generate_topic_key (sample_model 0) = Some k
    /\ match_nodes (is_document (py "d"))
         (store (final (create_topic_graph fresh_session [py "d"; py "d"] [0; 0]
                          sample_model))) = [a]
    /\ match_nodes (is_topic k)
         (store (final (create_topic_graph fresh_session [py "d"; py "d"] [0; 0]
                          sample_model))) = [b]
    /\ BELONGS_TO a b
       ∈ rels (store (final (create_topic_graph fresh_session [py "d"; py "d"]
                               [0; 0] sample_model)))
    /\ length (positions (is_belongs_to a b)
                 (rels (store (final (create_topic_graph fresh_session
                                        [py "d"; py "d"] [0; 0] sample_model)))))
       = 1%nat.
Proof.
  split; [apply empty_graph_no_duplicates|].
  split; [vm_compute; reflexivity|]. split; [reflexivity|]. split; [reflexivity|].
  apply (one_document_node_one_edge fresh_session [py "d"; py "d"] [0; 0]
           sample_model _ 1%nat);
    [apply empty_graph_no_duplicates|vm_compute; reflexivity|reflexivity
    |reflexivity].
Defined.

(** X6: when the store has no duplicates before a run that returns, then
    after it every keyword of an assigned topic has exactly one Keyword
    node, also when several topics share the word, and exactly one
    REPRESENTS relationship leads from it to the one Topic node of the
    topic's key. *)
Theorem one_keyword_node_one_edge `{SetIteration}
    s docs topics topic_model s' id w st :
  no_duplicates (store s) ->
  create_topic_graph s docs topics topic_model = Returned s' ->
  id ∈ topics -> (w, st) ∈ topic_model id ->
  exists k a b,
    generate_topic_key (topic_model id) = Some k
    /\ match_nodes (is_keyword w) (store s') = [a]
    /\ match_nodes (is_topic k) (store s') = [b]
    /\ (exists o, REPRESENTS a b o ∈ rels (store s'))
    /\ length (positions (is_represents a b) (rels (store s'))) = 1%nat.
Proof.
  intros Hnd Hret Hid Hw.
  destruct (returned_keyword_linked _ _ _ _ _ _ _ _ Hret Hid Hw)
    as (k & Hk & Htopic & Hsrc & Hrel).
  pose proof (create_topic_graph_no_duplicates s docs topics topic_model Hnd)
    as [Hut _ Huk _ Hur].
  rewrite Hret in Hut, Huk, Hur. cbn [final] in Hut, Huk, Hur.
  destruct (one_element _ (Huk w) Hsrc) as [a Ha].
  destruct (one_element _ (Hut k) Htopic) as [b Hb].
  assert (positions (is_represents a b) (rels (store s')) <> []) as Hab.
  { apply Hrel; [rewrite Ha|rewrite Hb]; left. }
  exists k, a, b. split; [done|]. split; [done|]. split; [done|].
  split; [by apply positions_represents|].
  destruct (one_element _ (Hur a b) Hab) as [j ->]. done.
Qed.

Lemma one_keyword_node_one_edge_witness :
  no_duplicates (store fresh_session)
  /\ create_topic_graph fresh_session [py "d"] [0] repeating_model
     = Returned (final (create_topic_graph fresh_session [py "d"] [0]
                          repeating_model))
  /\ (0 : Z) ∈ [0]
  /\ (py "a", 0.5%float) ∈ repeating_model 0
  /\ exists k a b,
    generate_topic_key (repeating_model 0) = Some k
    /\ match_nodes (is_keyword (py "a"))
         (store (final (create_topic_graph fresh_session [py "d"] [0]
                          repeating_model))) = [a]
    /\ match_nodes (is_topic k)
         (store (final (create_topic_graph fresh_session [py "d"] [0]
                          repeating_model))) = [b]
    /\ (exists o,
          REPRESENTS a b o
          ∈ rels (store (final (create_topic_graph fresh_session [py "d"] [0]
                                  repeating_model))))
    /\ length (positions (is_represents a b)
                 (rels (store (final (create_topic_graph fresh_session [py "d"]
                                        [0] repeating_model)))))
       = 1%nat.
Proof.
  split; [apply empty_graph_no_duplicates|].
  split; [vm_compute; reflexivity|]. split; [left|]. split; [right; left|].
  apply (one_keyword_node_one_edge fresh_session [py "d"] [0] repeating_model _ 0
           (py "a") 0.5%float);
    [apply empty_graph_no_duplicates|vm_compute; reflexivity|left|right; left].
Defined.

(** ** Errors and edge cases of the run *)

(** X7: the run raises exactly when the key of some assigned topic cannot
    be resolved, and it then leaves the session as it was: no statement has
    been run.  The keywords of a topic id that is not assigned are never
    looked at. *)
Theorem create_topic_graph_raises_iff `{SetIteration} s docs topics topic_model :
  (create_topic_graph s docs topics topic_model = Raised UnicodeEncodeError s
   <-> exists id, id ∈ topics /\ generate_topic_key (topic_model id) = None)
  /\ (forall e s', create_topic_graph s docs topics topic_model = Raised e s' ->
        s' = s)
  /\ ((forall id, id ∈ topics -> is_Some (generate_topic_key (topic_model id))) ->
      exists s', create_topic_graph s docs topics topic_model = Returned s').
Proof.
  destruct (create_topic_graph_cases s docs topics topic_model)
    as [[Htq Hraise]|(tqs & dqs & Htq & Hdq & Hret)].
  - destruct (topic_queries_None _ _ Htq) as (id & Hid & Hk).
    apply (proj1 (set_iter_elem _ _)) in Hid.
    split; [split; [intros _; by eauto|done]|]. split.
    + intros e s'. rewrite Hraise. by intros [= <-].
    + intros Hall. destruct (Hall id Hid) as [k Hk']. congruence.
  - split; [|split; [|by eauto]].
    + split; [by rewrite Hret|].
      intros (id & Hid & Hk). apply (proj2 (set_iter_elem _ _)) in Hid.
      pose proof (topic_queries_resolved _ _ _ Htq) as Hres.
      rewrite Forall_forall in Hres. destruct (Hres id Hid) as [k Hk'].
      congruence.
    + intros e s'. by rewrite Hret.
Qed.

Lemma set_iter_nil `{SetIteration} : set_iter [] = [].
Proof.
  apply elem_of_nil_inv. intros x Hx. apply (proj1 (set_iter_elem _ _)) in Hx.
  by apply elem_of_nil in Hx.
Qed.

Lemma zip_py_nil_r {A B} (xs : list A) : zip_py xs (@nil B) = [].
Proof. by destruct xs. Qed.

(** X8: without assignments the run returns after the topic statement and
    the document statement, both with an empty batch, and the store is as
    before, whatever the documents are: none of them is written. *)
Theorem create_topic_graph_no_assignments `{SetIteration} s docs topic_model :
  create_topic_graph s docs [] topic_model
  = Returned (Session (store s) (log s ++ [MergeTopics []; MergeDocuments []])).
Proof.
  unfold create_topic_graph. rewrite set_iter_nil.
  unfold doc_queries. rewrite zip_py_nil_r. simpl.
  unfold run. simpl. by rewrite <- (assoc (++)).
Qed.

Lemma topic_rows_keep_other g tqs (q : node -> bool) :
  (forall v n, q (with_keywords v n) = q n) -> (forall k o, q (Topic k o) = false) ->
  positions q (nodes (foldl run_topic_row g tqs)) = positions q (nodes g).
Proof.
  intros Hq Hfresh. revert g.
  induction tqs as [|r tqs IH]; intros g; simpl; [done|].
  by rewrite IH, topic_row_keeps_other.
Qed.

Lemma keyword_rows_keep_documents g rows c :
  positions (is_document c) (nodes (foldl run_keyword_row g rows))
  = positions (is_document c) (nodes g).
Proof.
  revert g. induction rows as [|r rows IH]; intros g; simpl; [done|].
  by rewrite IH, keyword_row_keeps_documents.
Qed.

Lemma doc_rows_keep_other_documents g dqs d :
  (forall dq, dq ∈ dqs -> dq_content dq <> d) ->
  positions (is_document d) (nodes (foldl run_doc_row g dqs))
  = positions (is_document d) (nodes g).
Proof.
  revert g. induction dqs as [|dq dqs IH]; intros g Hno; simpl; [done|].
  rewrite IH by (intros dq' Hin; apply Hno; by right).
  rewrite nodes_run_doc_row. apply positions_merged_nodes.
  intros _. simpl. apply bool_decide_eq_false_2, Hno. left.
Qed.

(** X9: a document that is not among the first [len(topics)] documents
    leaves no trace: the Document nodes with its content are, after a run
    that returns, those of before. *)
Theorem unpaired_document_not_written `{SetIteration}
    s docs topics topic_model s' d :
  create_topic_graph s docs topics topic_model = Returned s' ->
  d ∉ take (length topics) docs ->
  match_nodes (is_document d) (store s') = match_nodes (is_document d) (store s).
Proof.
  intros Hret Hd.
  destruct (create_topic_graph_cases s docs topics topic_model)
    as [[_ Hraise]|(tqs & dqs & Htq & Hdq & Hret')]; [congruence|].
  assert (s' = foldl run s (MergeTopics tqs :: MergeDocuments dqs
                            :: keyword_batch topic_model (set_iter topics)))
    as -> by congruence.
  unfold match_nodes. rewrite store_after_run.
  rewrite keyword_rows_keep_documents, doc_rows_keep_other_documents.
  - apply topic_rows_keep_other; [|done]. intros. apply is_document_with_keywords.
  - intros dq (i & Hi)%list_elem_of_lookup Heq. apply Hd.
    destruct (doc_queries_lookup _ _ _ _ _ _ Hdq Hi) as (Hdoc & id & Hid & _).
    apply elem_of_take. exists i. rewrite Hdoc, Heq. split; [done|].
    by apply lookup_lt_Some in Hid.
Qed.

Lemma unpaired_document_not_written_witness :
  create_topic_graph fresh_session [py "le chat mange"; py "le chien court"] [0]
    sample_model
  = Returned (final (create_topic_graph fresh_session
                       [py "le chat mange"; py "le chien court"] [0] sample_model))
  /\ (py "le chien court"
      ∉ take (length [0]) [py "le chat mange"; py "le chien court"])
  /\ match_nodes (is_document (py "le chien court"))
       (store (final (create_topic_graph fresh_session
                        [py "le chat mange"; py "le chien court"] [0]
                        sample_model)))
     = match_nodes (is_document (py "le chien court")) (store fresh_session).
Proof.
  assert (py "le chien court"
          ∉ take (length [0]) [py "le chat mange"; py "le chien court"]) as Hd.
  { simpl. intros Hin%list_elem_of_singleton. vm_compute in Hin. discriminate Hin. }
  split; [vm_compute; reflexivity|]. split; [exact Hd|].
  apply (unpaired_document_not_written fresh_session
           [py "le chat mange"; py "le chien court"] [0] sample_model);
    [vm_compute; reflexivity|exact Hd].
Defined.

Lemma length_keyword_batch (topic_model : model) ids :
  Forall (fun id => is_Some (generate_topic_key (topic_model id))) ids ->
  length (keyword_batch topic_model ids)
  = sum_list_with (fun id => length (topic_model id)) ids.
Proof.
  unfold keyword_batch. induction 1 as [|id ids [k Hk] _ IH]; [done|].
  rewrite bind_cons, length_app, IH, Hk. simpl. by rewrite length_map.
Qed.

(** X10: a run that returns has run one topic statement, one document
    statement and one keyword statement for each keyword of each distinct
    assigned topic id: 2 + the sum of the lengths of their keyword lists. *)
Theorem create_topic_graph_statement_count `{SetIteration}
    s docs topics topic_model s' :
  create_topic_graph s docs topics topic_model = Returned s' ->
  length (log s')
  = (length (log s) + 2
     + sum_list_with (fun id => length (topic_model id)) (set_iter topics))%nat
  /\ NoDup (set_iter topics)
  /\ forall id, id ∈ set_iter topics <-> id ∈ topics.
Proof.
  intros Hret.
  destruct (create_topic_graph_returned _ _ _ _ _ Hret)
    as (tqs & dqs & Htq & _ & Hlog & _).
  split; [|split; [apply set_iter_NoDup|apply set_iter_elem]].
  rewrite Hlog, length_app. simpl.
  rewrite length_keyword_batch by (by eapply topic_queries_resolved). lia.
Qed.

Lemma create_topic_graph_statement_count_witness :
  create_topic_graph fresh_session [py "le chat mange"; py "le chien court"] [0; 0]
    sample_model
  = Returned (final (create_topic_graph fresh_session
                       [py "le chat mange"; py "le chien court"] [0; 0] sample_model))
  /\ length (log (final (create_topic_graph fresh_session
                           [py "le chat mange"; py "le chien court"] [0; 0]
                           sample_model)))
     = (length (log fresh_session) + 2
        + sum_list_with (fun id => length (sample_model id))
                        (set_iter [0%Z; 0%Z]))%nat.
Proof.
  split; [vm_compute; reflexivity|].
  apply (create_topic_graph_statement_count fresh_session
           [py "le chat mange"; py "le chien court"] [0; 0] sample_model).
  vm_compute. reflexivity.
Defined.

(** * Further properties of the statements *)

(** ** A statement run twice *)

(** X11: each of the three statements is idempotent on every store: run
    again with the same parameters it changes nothing. *)
Theorem exec_idempotent q g : exec q (exec q g) = exec q g.
Proof.
  destruct q as [tqs|dqs|w k st]; simpl.
  - apply topic_rows_fixpoint; [apply topic_rows_present|apply topic_rows_settled].
  - apply doc_rows_fixpoint, doc_rows_linked.
  - apply (keyword_rows_fixpoint _ [(w, k, st)]).
    + apply (keyword_rows_linked g [(w, k, st)]).
    + apply (keyword_rows_settled g [(w, k, st)]).
Qed.

(** ** Nothing is removed *)

Lemma keeps_refl g : keeps g g.
Proof. split; eauto. Qed.

Lemma keeps_trans g1 g2 g3 : keeps g1 g2 -> keeps g2 g3 -> keeps g1 g3.
Proof.
  intros [Hn12 Hr12] [Hn23 Hr23]. split.
  - intros i n Hi. destruct (Hn12 _ _ Hi) as (n2 & Hi2 & Hk2).
    destruct (Hn23 _ _ Hi2) as (n3 & Hi3 & Hk3). exists n3. split; congruence.
  - intros j e Hj. destruct (Hr12 _ _ Hj) as (e2 & Hj2 & Hk2).
    destruct (Hr23 _ _ Hj2) as (e3 & Hj3 & Hk3). exists e3. split; congruence.
Qed.

Lemma foldl_keeps {A} (f : graph -> A -> graph) g l :
  (forall g x, keeps g (f g x)) -> keeps g (foldl f g l).
Proof.
  intros Hf. revert g. induction l as [|x l IH]; intros g; simpl.
  - apply keeps_refl.
  - eapply keeps_trans; [apply Hf|apply IH].
Qed.

Lemma lookup_merged_nodes_old p fresh ns i n :
  ns !! i = Some n -> merged_nodes p fresh ns !! i = Some n.
Proof. intros Hi. by apply lookup_app_l_Some. Qed.

Lemma topic_row_keeps g q : keeps g (run_topic_row g q).
Proof.
  rewrite run_topic_row_eq. split; cbn [nodes rels]; [|by eauto].
  intros i n Hi. eexists. split.
  - apply lookup_app_l_Some. rewrite lookup_update_where, Hi. done.
  - destruct (is_topic (tq_key q) n); [by destruct n|done].
Qed.

Lemma doc_row_keeps g q : keeps g (run_doc_row g q).
Proof.
  rewrite run_doc_row_eq. cbv zeta. split; cbn [nodes rels].
  - intros i n Hi. exists n. split; [by apply lookup_merged_nodes_old|done].
  - intros j e Hj.
    match goal with
    | |- context [foldl ?f (rels g) ?ps] =>
        destruct (foldl_merge_set_rel is_belongs_to BELONGS_TO id
                    (fun _ _ _ => eq_refl) (fun _ => eq_refl) ps (rels g))
          as (news & -> & _)
    end.
    exists e. split; [|done].
    apply lookup_app_l_Some. by rewrite update_where_id.
Qed.

Lemma keyword_row_keeps g r : keeps g (run_keyword_row g r).
Proof.
  split.
  - intros i n Hi. exists n. split; [|done].
    unfold run_keyword_row. rewrite nodes_run_keyword.
    by apply lookup_merged_nodes_old.
  - intros j e Hj. destruct (rels_run_keyword_row g r) as (news & -> & _).
    eexists. split.
    + apply lookup_app_l_Some. rewrite lookup_update_where, Hj. done.
    + destruct (row_binds _ r e); [by destruct e|done].
Qed.

Lemma exec_keeps q g : keeps g (exec q g).
Proof.
  destruct q as [tqs|dqs|w k st]; simpl.
  - apply foldl_keeps, topic_row_keeps.
  - apply foldl_keeps, doc_row_keeps.
  - apply (keyword_row_keeps g (w, k, st)).
Qed.

Lemma create_topic_graph_keeps `{SetIteration} s docs topics topic_model :
  keeps (store s) (store (final (create_topic_graph s docs topics topic_model))).
Proof.
  destruct (create_topic_graph_cases s docs topics topic_model)
    as [[_ ->]|(tqs & dqs & _ & _ & ->)]; [apply keeps_refl|].
  cbn [final]. rewrite store_foldl_run.
  apply (foldl_keeps (fun g q => exec q g)). intros g q. apply exec_keeps.
Qed.

(** X12: a statement never removes anything: every node stays at its
    position with its label and key, only the keywords of a Topic node may
    change, and every relationship stays at its position with its type and
    end points, only the strength of a REPRESENTS relationship may change. *)
Theorem exec_keeps_nodes_and_relationships q g :
  (forall i c, nodes g !! i = Some (Document c) ->
     nodes (exec q g) !! i = Some (Document c))
  /\ (forall i w, nodes g !! i = Some (Keyword w) ->
        nodes (exec q g) !! i = Some (Keyword w))
  /\ (forall i k o, nodes g !! i = Some (Topic k o) ->
        exists o', nodes (exec q g) !! i = Some (Topic k o'))
  /\ (forall j d t, rels g !! j = Some (BELONGS_TO d t) ->
        rels (exec q g) !! j = Some (BELONGS_TO d t))
  /\ (forall j x t o, rels g !! j = Some (REPRESENTS x t o) ->
        exists o', rels (exec q g) !! j = Some (REPRESENTS x t o')).
Proof.
  destruct (exec_keeps q g) as [Hn Hr].
  split; [|split; [|split; [|split]]].
  - intros i c Hi. destruct (Hn _ _ Hi) as ([| |] & -> & Hk); by simplify_eq/=.
  - intros i w Hi. destruct (Hn _ _ Hi) as ([| |] & -> & Hk); by simplify_eq/=.
  - intros i k o Hi.
    destruct (Hn _ _ Hi) as ([k' o'| |] & -> & Hk); simplify_eq/=. eauto.
  - intros j d t Hj. destruct (Hr _ _ Hj) as ([|] & -> & Hk); by simplify_eq/=.
  - intros j x t o Hj.
    destruct (Hr _ _ Hj) as ([|x' t' o'] & -> & Hk); simplify_eq/=. eauto.
Qed.

(** X13: a run never detaches a document from a topic: every BELONGS_TO
    relationship of the store is still there after the run, between the same
    Document node and the same Topic node, also when the run assigns the
    document to another topic. *)
Theorem create_topic_graph_keeps_belongs_to `{SetIteration}
    s docs topics topic_model j d t c k o :
  rels (store s) !! j = Some (BELONGS_TO d t) ->
  nodes (store s) !! d = Some (Document c) ->
  nodes (store s) !! t = Some (Topic k o) ->
  rels (store (final (create_topic_graph s docs topics topic_model))) !! j
  = Some (BELONGS_TO d t)
  /\ nodes (store (final (create_topic_graph s docs topics topic_model))) !! d
     = Some (Document c)
  /\ exists o',
       nodes (store (final (create_topic_graph s docs topics topic_model))) !! t
       = Some (Topic k o').
Proof.
  intros Hj Hd Ht.
  destruct (create_topic_graph_keeps s docs topics topic_model) as [Hn Hr].
  split; [|split].
  - destruct (Hr _ _ Hj) as ([|] & -> & Hk); by simplify_eq/=.
  - destruct (Hn _ _ Hd) as ([| |] & -> & Hk); by simplify_eq/=.
  - destruct (Hn _ _ Ht) as ([k' o'| |] & -> & Hk); simplify_eq/=. eauto.
Qed.

Lemma create_topic_graph_keeps_belongs_to_witness :
  rels (store (final (create_topic_graph fresh_session [py "d"] [0] sample_model)))
    !! 0%nat = Some (BELONGS_TO 1 0)
  /\ nodes (store (final (create_topic_graph fresh_session [py "d"] [0]
                            sample_model))) !! 1%nat
     = Some (Document (py "d"))
  /\ nodes (store (final (create_topic_graph fresh_session [py "d"] [0]
                            sample_model))) !! 0%nat
     = Some (Topic (py "1541bb6ac71a71c3d4e39e6071a1f98f") (Some (py "chat, chien")))
  /\ rels (store (final (create_topic_graph
                           (final (create_topic_graph fresh_session [py "d"] [0]
                                     sample_model))
                           [py "d"] [1] sample_model))) !! 0%nat
     = Some (BELONGS_TO 1 0)
  /\ BELONGS_TO 1 4
     ∈ rels (store (final (create_topic_graph
                             (final (create_topic_graph fresh_session [py "d"] [0]
                                       sample_model))
                             [py "d"] [1] sample_model))).
Proof.
  split; [vm_compute; reflexivity|]. split; [vm_compute; reflexivity|].
  split; [vm_compute; reflexivity|]. split.
  - apply (create_topic_graph_keeps_belongs_to
             (final (create_topic_graph fresh_session [py "d"] [0] sample_model))
             [py "d"] [1] sample_model 0%nat 1%nat 0%nat (py "d")
             (py "1541bb6ac71a71c3d4e39e6071a1f98f") (Some (py "chat, chien")));
      vm_compute; reflexivity.
  - apply list_elem_of_lookup. exists 3%nat. vm_compute. reflexivity.
Defined.

(** ** The end points of the relationships *)

Lemma keeps_topic g g' t k o :
  keeps g g' -> nodes g !! t = Some (Topic k o) ->
  exists k' o', nodes g' !! t = Some (Topic k' o').
Proof.
  intros [Hn _] Ht. destruct (Hn _ _ Ht) as ([k' o'| |] & Ht' & Hk);
    simplify_eq/=. eauto.
Qed.

Lemma keeps_well_typed g g' :
  keeps g g' -> well_typed g ->
  (forall j e, rels g' !! j = Some e -> (length (rels g) <= j)%nat ->
     match e with
     | BELONGS_TO d t =>
         (exists c, nodes g' !! d = Some (Document c))
         /\ exists k o, nodes g' !! t = Some (Topic k o)
     | REPRESENTS x t _ =>
         (exists w, nodes g' !! x = Some (Keyword w))
         /\ exists k o, nodes g' !! t = Some (Topic k o)
     end) ->
  well_typed g'.
Proof.
  intros Hkeeps Hwt Hnew j e' Hj'.
  destruct (decide (j < length (rels g))%nat) as [Hlt|Hge];
    [|apply (Hnew j); [done|lia]].
  apply lookup_lt_is_Some in Hlt as [e Hj].
  pose proof Hkeeps as [Hn Hr].
  destruct (Hr _ _ Hj) as (e'' & Hj'' & Hends).
  assert (e'' = e') as -> by congruence.
  specialize (Hwt _ _ Hj).
  destruct e as [d t|x t o], e' as [d' t'|x' t' o']; simplify_eq/=.
  - destruct Hwt as [[c Hc] (k & o & Ht)]. split.
    + destruct (Hn _ _ Hc) as ([| |] & -> & Hk); simplify_eq/=. eauto.
    + by eapply keeps_topic.
  - destruct Hwt as [[w Hw] (k & ok & Ht)]. split.
    + destruct (Hn _ _ Hw) as ([| |] & -> & Hk); simplify_eq/=. eauto.
    + by eapply keeps_topic.
Qed.

Lemma elem_of_positions_document c ns d :
  d ∈ positions (is_document c) ns <-> ns !! d = Some (Document c).
Proof.
  rewrite elem_of_positions. split.
  - intros ([|c'|] & Hx & Hp); simpl in Hp; try done.
    by apply bool_decide_eq_true_1 in Hp as ->.
  - intros Hx. eexists. split; [done|apply is_document_fresh].
Qed.

Lemma topic_row_well_typed g q : well_typed g -> well_typed (run_topic_row g q).
Proof.
  intros Hwt. apply (keeps_well_typed g); [apply topic_row_keeps|done|].
  intros j e Hj Hge. rewrite rels_run_topic_row in Hj.
  apply lookup_lt_Some in Hj. lia.
Qed.

Lemma doc_row_well_typed g q : well_typed g -> well_typed (run_doc_row g q).
Proof.
  intros Hwt. apply (keeps_well_typed g); [apply doc_row_keeps|done|].
  intros j e. rewrite run_doc_row_eq. cbv zeta. cbn [nodes rels].
  match goal with
  | |- context [foldl ?f (rels g) ?ps] =>
      destruct (foldl_merge_set_rel is_belongs_to BELONGS_TO id
                  (fun _ _ _ => eq_refl) (fun _ => eq_refl) ps (rels g))
        as (news & -> & Hnews & _)
  end.
  rewrite update_where_id. intros Hj Hge.
  rewrite lookup_app_r in Hj by done.
  rewrite Forall_lookup in Hnews.
  destruct (Hnews _ _ Hj) as ([a b] & [Ha Hb]%elem_of_list_prod & ->).
  simpl. apply elem_of_positions_document in Ha.
  apply elem_of_positions_topic in Hb as [o Hb]. eauto.
Qed.

Lemma keyword_row_well_typed g r : well_typed g -> well_typed (run_keyword_row g r).
Proof.
  intros Hwt. apply (keeps_well_typed g); [apply keyword_row_keeps|done|].
  intros j e Hj Hge.
  destruct (rels_run_keyword_row g r) as (news & Heq & Hnews & _).
  rewrite Heq in Hj. rewrite lookup_app_r in Hj
    by (unfold update_where; by rewrite length_fmap).
  rewrite Forall_lookup in Hnews.
  destruct (Hnews _ _ Hj) as (a & b & -> & Hb).
  apply row_binds_represents in Hb as [Ha [ok Hb]]. eauto.
Qed.

Lemma foldl_well_typed {A} (f : graph -> A -> graph) g l :
  (forall g x, well_typed g -> well_typed (f g x)) ->
  well_typed g -> well_typed (foldl f g l).
Proof.
  intros Hf. revert g. induction l as [|x l IH]; intros g Hg; simpl; [done|].
  by apply IH, Hf.
Qed.

Lemma exec_well_typed q g : well_typed g -> well_typed (exec q g).
Proof.
  destruct q as [tqs|dqs|w k st]; simpl.
  - apply foldl_well_typed, topic_row_well_typed.
  - apply foldl_well_typed, doc_row_well_typed.
  - apply (keyword_row_well_typed g (w, k, st)).
Qed.

Lemma well_typed_empty : well_typed empty_graph.
Proof. intros j e Hj. by destruct j. Qed.

(** X14: a run keeps the relationships well typed.  In a store where every
    BELONGS_TO relationship leads from a Document node to a Topic node and
    every REPRESENTS relationship from a Keyword node to a Topic node, this
    is still so after [create_topic_graph], whether it returns or raises:
    no statement leaves a relationship without an end point or attaches
    one to a node of another label. *)
Theorem create_topic_graph_keeps_well_typed `{SetIteration}
    s docs topics topic_model :
  well_typed (store s) ->
  well_typed (store (final (create_topic_graph s docs topics topic_model))).
Proof.
  intros Hs.
  destruct (create_topic_graph_cases s docs topics topic_model)
    as [[_ ->]|(tqs & dqs & _ & _ & ->)]; [done|].
  cbn [final]. rewrite store_foldl_run.
  apply foldl_well_typed; [intros; by apply exec_well_typed|done].
Qed.

Lemma create_topic_graph_keeps_well_typed_witness :
  well_typed (store fresh_session)
  /\ well_typed (store (final (create_topic_graph fresh_session
                                 [py "d"; py "e"] [0; 1] sample_model))).
Proof.
  assert (well_typed (store fresh_session)) as Hs.
  { intros j e Hj. vm_compute in Hj. by destruct j. }
  split; [exact Hs|].
  exact (create_topic_graph_keeps_well_typed fresh_session
           [py "d"; py "e"] [0; 1] sample_model Hs).
Defined.

(** X15: every store that a sequence of the three statements builds from
    the empty database is well typed: each BELONGS_TO relationship leads
    from a Document node to a Topic node, each REPRESENTS relationship from
    a Keyword node to a Topic node. *)
Theorem statements_from_empty_well_typed stmts :
  well_typed (foldl (fun g q => exec q g) empty_graph stmts).
Proof.
  apply foldl_well_typed; [intros; by apply exec_well_typed|].
  apply well_typed_empty.
Qed.

(** * Further properties of the resolver *)

Lemma utf8_char_is_Some c : is_Some (utf8_char c) <-> encodable c = true.
Proof.
  unfold utf8_char, encodable.
  destruct (c <? 0) eqn:E0, (c <? 128) eqn:E1, (c <? 2048) eqn:E2,
    (c <? 65536) eqn:E3, (55296 <=? c) eqn:E4, (c <=? 57343) eqn:E5,
    (c <? 1114112) eqn:E6, (0 <=? c) eqn:E7; simpl;
    try (split; [intros [? [=]]|intros [=]]; fail);
    try (split; [done|by eauto]); lia.
Qed.

Lemma encode_is_Some s : is_Some (encode s) <-> Forall (fun c => encodable c = true) s.
Proof.
  induction s as [|c s IH]; simpl.
  { split; [by constructor|by eauto]. }
  rewrite Forall_cons, <- IH, <- utf8_char_is_Some.
  destruct (utf8_char c), (encode s); split;
    try (intros [? [=]]); try (intros [[? [=]] [? [=]]]); eauto.
Qed.

Lemma Forall_join {P : Z -> Prop} sep xs :
  Forall P sep -> Forall P (join sep xs) <-> Forall (Forall P) xs.
Proof.
  intros Hsep. induction xs as [|x xs IH]; simpl.
  { split; by constructor. }
  destruct xs as [|y xs].
  { rewrite Forall_cons. split; [by intros ?; split|by intros [? _]]. }
  rewrite !Forall_app, IH, (Forall_cons _ x). tauto.
Qed.

(** X16: the resolver raises (the UnicodeEncodeError of [str.encode])
    exactly when one of the words holds a code point that UTF-8 does not
    encode, that is, a lone surrogate; otherwise it returns a key.  The
    separator and the weights never make it fail. *)
Theorem generate_topic_key_raises_iff kws :
  generate_topic_key kws = None
  <-> exists kw w c, (kw, w) ∈ kws /\ c ∈ kw /\ encodable c = false.
Proof.
  unfold generate_topic_key. cbv zeta.
  set (ws := map (fun '(kw, _) => kw) kws).
  assert (encode (join (py "_") ws) = None
          <-> ~ Forall (Forall (fun c => encodable c = true)) ws) as Hnone.
  { rewrite <- (Forall_join (py "_")) by (by repeat constructor).
    rewrite <- encode_is_Some. rewrite <- eq_None_not_Some. done. }
  assert ((match encode (join (py "_") ws) with
           | Some b => Some (MD5.hexdigest b) | None => None end) = None
          <-> encode (join (py "_") ws) = None) as ->
    by (by destruct (encode _)).
  rewrite Hnone. split.
  - intros Hnot. apply not_Forall_Exists in Hnot; [|solve_decision].
    apply Exists_exists in Hnot as (kw & Hkw & Hbad).
    apply not_Forall_Exists in Hbad; [|solve_decision].
    apply Exists_exists in Hbad as (c & Hc & Henc).
    apply list_elem_of_fmap in Hkw as ([kw' w] & -> & Hin).
    exists kw', w, c. split; [done|]. split; [done|].
    simpl in Henc. by destruct (encodable c).
  - intros (kw & w & c & Hin & Hc & Henc) Hall.
    rewrite Forall_forall in Hall.
    assert (kw ∈ ws) as Hkw
      by (apply list_elem_of_fmap; by exists (kw, w)).
    specialize (Hall _ Hkw). rewrite Forall_forall in Hall.
    specialize (Hall _ Hc). congruence.
Qed.

Lemma join_merge sep xs a b ys :
  join sep (xs ++ (a ++ sep ++ b) :: ys) = join sep (xs ++ a :: b :: ys).
Proof.
  induction xs as [|x xs IH].
  - destruct ys as [|y ys]; simpl; [done|]. by rewrite <- !(assoc (++)).
  - destruct xs as [|x' xs].
    + change (join sep ([x] ++ (a ++ sep ++ b) :: ys))
        with (x ++ sep ++ join sep ([] ++ (a ++ sep ++ b) :: ys)).
      by rewrite IH.
    + change (join sep ((x :: x' :: xs) ++ (a ++ sep ++ b) :: ys))
        with (x ++ sep ++ join sep ((x' :: xs) ++ (a ++ sep ++ b) :: ys)).
      by rewrite IH.
Qed.

(** X17: the key does not tell a word that contains the separator from the
    two words around it: anywhere in a keyword list, the word [a_b] and the
    two words [a], [b] give the same key, whatever the weights.  Two topics
    whose keyword lists differ in this way share one key. *)
Theorem generate_topic_key_separator_collision kws1 kws2 a b (w w1 w2 : weight) :
  generate_topic_key (kws1 ++ (a ++ py "_" ++ b, w) :: kws2)
  = generate_topic_key (kws1 ++ (a, w1) :: (b, w2) :: kws2)
  /\ length (kws1 ++ (a ++ py "_" ++ b, w) :: kws2)
     <> length (kws1 ++ (a, w1) :: (b, w2) :: kws2).
Proof.
  split; [|rewrite !length_app; simpl; lia].
  unfold generate_topic_key. cbv zeta.
  rewrite !map_app. cbn [map]. by rewrite join_merge.
Qed.
